(** * Chemical-potential analysis of pycdt (pycdt/core/chemical_potentials.py)

    A shallow embedding of [ChemPotAnalyzer], [MPChemPotAnalyzer] and the
    entry-separation part of [UserChemPotAnalyzer], with the properties of
    the facet partitioner, the stability classification and the dilute
    substitutional merge.

    Conventions of the embedding:
    - Python [str] is [string]; [list.sort()] on strings orders by character
      code, which is [String.le];
    - a Python [float] is a rational of [Q]; stored values are compared with
      Leibniz equality, computed ones with [Qle_bool];
    - a [dict] whose iteration order is irrelevant is a [gmap]; a [dict] that
      the code iterates over is the list of its items in iteration order;
    - the dicts of chemical potentials that one solve returns are distinct
      objects, each read under its own key only, and a table that has been
      merged from is not read again: storing such a dict in the merged
      table and updating it there is modelled by value;
    - exceptions are the left summand of [exn + A]. *)

From Stdlib Require Import Ascii QArith.
From stdpp Require Import gmap strings list fin_maps sorting.


(** ** Python strings *)

Module PyStr.

(** [sep.join(l)] *)
Definition join (sep : string) (l : list string) : string :=
  String.concat sep l.

(** [s.split('-')]: the maximal dash-free pieces of [s], in order;
    the empty string gives one empty piece. *)
Fixpoint split_dash (s : string) : list string :=
  match s with
  | EmptyString => [EmptyString]
  | String c s' =>
      if Ascii.eqb c "-"%char then EmptyString :: split_dash s'
      else match split_dash s' with
           | [] => [String c EmptyString]
           | w :: ws => String c w :: ws
           end
  end.

(** [sub in s] for two strings: [sub] occurs in [s] as a contiguous
    piece. *)
Fixpoint contains (sub s : string) : bool :=
  String.prefix sub s ||
  match s with
  | EmptyString => false
  | String _ s' => contains sub s'
  end.

(** Truth value of an optional string in a condition ([if sub_el:],
    [elif self.mpid:]): [None] and the empty string are false. The result
    is the string when the condition holds. *)
Definition truth (o : option string) : option string :=
  match o with
  | Some EmptyString => None
  | Some s => Some s
  | None => None
  end.

(** [l.sort()]: strings are ordered by [String.leb], character code by
    character code. *)
Definition sort (l : list string) : list string := merge_sort String.le l.

End PyStr.

(** ** ChemPotAnalyzer.diff_bulk_sub_phases *)

(** One turn of the loop [for face in face_list]; the state is the pair
    [(blk, sub_spcs)]. *)
Definition diff_step (sub_el : option string)
    (acc : list string * list string) (face : string)
  : list string * list string :=
  let '(blk, sub_spcs) := acc in
  match PyStr.truth sub_el with
  | Some s =>
      if PyStr.contains s face then (blk, sub_spcs ++ [face])
      else (blk ++ [face], sub_spcs)
  | None => (blk ++ [face], sub_spcs)
  end.

(** The two lists after [blk.sort()] and [sub_spcs.sort()]. *)
Definition diff_bulk_sub_lists (face_list : list string)
    (sub_el : option string) : list string * list string :=
  let '(blk, sub_spcs) := foldl (diff_step sub_el) ([], []) face_list in
  (PyStr.sort blk, PyStr.sort sub_spcs).

Definition diff_bulk_sub_phases (face_list : list string)
    (sub_el : option string) : list string * string * string :=
  let '(blk, sub_spcs) := diff_bulk_sub_lists face_list sub_el in
  let blknom := PyStr.join "-" blk in
  let subnom := PyStr.join "-" sub_spcs in
  (blk, blknom, subnom).

(** The test the loop applies to a phase label: the label contains the
    target symbol as a piece of text; an unset target matches nothing. *)
Definition in_sub (sub_el : option string) (face : string) : bool :=
  match PyStr.truth sub_el with
  | Some s => PyStr.contains s face
  | None => false
  end.

(** ** Exceptions *)

Inductive exn : Type :=
| ValueError (msg : string)
| KeyError
| TypeError
| AttributeError
| LibraryError (what : string).

#[global] Instance exn_ret : MRet (sum exn) := λ A x, inr x.
#[global] Instance exn_bind : MBind (sum exn) :=
  λ A B f m, match m with inl e => inl e | inr x => f x end.

Definition raise {A} (e : exn) : exn + A := inl e.

(** A [for] loop whose body may raise: the state is threaded from left to
    right and the first exception ends the loop. *)
Fixpoint foldM {A B} (f : A → B → exn + A) (a : A) (l : list B) : exn + A :=
  match l with
  | [] => mret a
  | b :: l' => a' ← f a b; foldM f a' l'
  end.

(** ** Data model *)

(** Modelled from the spec: pymatgen's [Composition], a mapping from element
    symbol to stoichiometric count; the reduced composition is the
    composition divided by the greatest common divisor of its counts. *)
Abbreviation Composition := (gmap string N).

Definition comp_gcd (c : Composition) : N :=
  map_fold (λ _ n g, N.gcd n g) 0%N c.

Definition reduced_composition (c : Composition) : Composition :=
  let g := comp_gcd c in
  if (g =? 0)%N then c else (λ n, n / g)%N <$> c.

(** [composition.elements] *)
Definition elements (c : Composition) : list string := (map_to_list c).*1.

(** [is_element]: exactly one element. *)
Definition comp_is_element (c : Composition) : bool := Nat.eqb (size c) 1.

(** A computed entry: a candidate phase. *)
Record Entry : Type := mkEntry {
  entry_id : option string;
  composition : Composition;
  energy : Q
}.

Definition is_element (e : Entry) : bool := comp_is_element (composition e).

(** Keys of a chemical-potential dict: pymatgen keys it by [Element]
    objects, the merge adds plain strings ([sub_el], ['name-append']); an
    [Element] never equals a string. *)
Inductive Key : Type :=
| KElement (symbol : string)
| KStr (s : string).

#[global] Instance Key_eq_dec : EqDecision Key.
Proof. solve_decision. Defined.

#[global] Instance Key_countable : Countable Key.
Proof.
  refine (inj_countable'
    (λ k, match k with KElement s => inl s | KStr s => inr s end)
    (λ x, match x with inl s => KElement s | inr s => KStr s end) _).
  intros []; reflexivity.
Defined.

(** Values of a chemical-potential dict. *)
Inductive Val : Type :=
| VFloat (x : Q)
| VStr (s : string).

(** One chemical-potential dict. *)
Abbreviation ChemPotVector := (gmap Key Val).
(** The dict returned by [get_all_chempots], as its items in iteration
    order. *)
Abbreviation ChemLims := (list (string * gmap Key Val)).
(** A dict from facet label to chemical potentials. *)
Abbreviation FacetTable := (gmap string (gmap Key Val)).

Definition name_append : Key := KStr "name-append".

(** [dict(items)]: a later item overwrites an earlier one of the same key. *)
Definition dict_of_items (items : ChemLims) : FacetTable :=
  foldl (λ m kv, <[kv.1 := kv.2]> m) ∅ items.

(** A dict from string to [V] kept in insertion order. *)
Fixpoint alist_set {V} (k : string) (v : V) (d : list (string * V))
  : list (string * V) :=
  match d with
  | [] => [(k, v)]
  | (k', v') :: d' =>
      if String.eqb k k' then (k, v) :: d' else (k', v') :: alist_set k v d'
  end.

Fixpoint alist_get {V} (k : string) (d : list (string * V)) : option V :=
  match d with
  | [] => None
  | (k', v') :: d' => if String.eqb k k' then Some v' else alist_get k d'
  end.

(** ** Collaborators *)

(** What the code reads of a pymatgen [PhaseDiagram] object. *)
Record PD : Type := mkPD {
  all_entries : list Entry;
  stable_entries : list Entry;
  (** component [1] of [get_decomp_and_e_above_hull(entry,
      allow_negative=True)] *)
  get_decomp_and_e_above_hull : Entry → Q;
  get_all_chempots : Composition → exn + ChemLims
}.

(** The constructor [PhaseDiagram(entries)]. It builds its own list of
    entries, so appending to [pd.all_entries] does not reach the list it was
    built from. *)
Class PhaseDiagramLib : Type :=
  PhaseDiagram : list Entry → exn + PD.

(** The two queries of [MPRester] the analysis uses. *)
Class MPRester : Type := mkMPRester {
  get_entries_in_chemsys : list string → exn + list Entry;
  get_entry_by_material_id : string → exn + Entry
}.

(** ** ChemPotAnalyzer.get_chempots_from_pd *)

Definition get_chempots_from_pd {pdlib : PhaseDiagramLib}
    (bulk_ce : option Entry) (pd : PD) : exn + ChemLims :=
  match bulk_ce with
  | None => raise (ValueError "No bulk entry supplied.")
  | Some b =>
      let bulk_composition := composition b in
      let redcomp := reduced_composition bulk_composition in
      (* append bulk_ce to phase diagram *)
      let entries := all_entries pd ++ [b] in
      pd ← PhaseDiagram entries;
      get_all_chempots pd redcomp
  end.

(** ** MPChemPotAnalyzer *)

(** [self.entries]: the lists under 'bulk_derived' and 'subs_set'. *)
Record Entries : Type := mkEntries {
  bulk_derived : list Entry;
  subs_set : list (string * list Entry)
}.

(** The attributes of the analyzer. [sub_species] is a set, given as the
    list of its members in iteration order. *)
Record MPChemPotAnalyzer : Type := mkMP {
  bulk_ce : option Entry;
  sub_species : list string;
  entries : Entries;
  mpid : option string;
  bulk_species_symbol : list string;
  redcomp : Composition
}.

Definition set_bulk_ce (b : Entry) (self : MPChemPotAnalyzer) :=
  mkMP (Some b) (sub_species self) (entries self) (mpid self)
       (bulk_species_symbol self) (redcomp self).

Definition set_entries (e : Entries) (self : MPChemPotAnalyzer) :=
  mkMP (bulk_ce self) (sub_species self) e (mpid self)
       (bulk_species_symbol self) (redcomp self).

(** The two assignments [self.bulk_species_symbol = ...] and
    [self.redcomp = ...] from the composition of the bulk entry. *)
Definition set_bulk_info (self : MPChemPotAnalyzer) (b : Entry) :=
  mkMP (bulk_ce self) (sub_species self) (entries self) (mpid self)
       (elements (composition b)) (reduced_composition (composition b)).

(** [sub_el in entry.composition] *)
Definition in_composition (sub_el : string) (e : Entry) : bool :=
  bool_decide (is_Some (composition e !! sub_el)).

(** The substitution entries of one [sub_el] in the dilute branch of
    [get_mp_entries]. *)
Definition fetch_sub_entries {mp : MPRester} (syms : list string)
    (bulk_entry_set : list (option string))
    (subs : list (string * list Entry)) (sub_el : string)
  : exn + list (string * list Entry) :=
  let els := syms ++ [sub_el] in
  sub_entry_set ← get_entries_in_chemsys els;
  match sub_entry_set with
  | [] => raise (ValueError "Could not fetch sub entries")
  | _ =>
      let fin_sub_entry_set :=
        filter (λ entry, entry_id entry ∉ bulk_entry_set) sub_entry_set in
      mret (alist_set sub_el fin_sub_entry_set subs)
  end.

(** The nested loops of the full branch of [get_mp_entries]: every entry is
    appended under each [sub_el] its composition contains. *)
Definition collect_subs (sub_species : list string) (bd : list Entry)
  : list (string * list Entry) :=
  foldl (λ subs entry,
    foldl (λ subs sub_el,
      if in_composition sub_el entry then
        match alist_get sub_el subs with
        | Some l => alist_set sub_el (l ++ [entry]) subs
        | None => subs
        end
      else subs) subs sub_species)
    (foldl (λ subs sub_el, alist_set sub_el [] subs) [] sub_species) bd.

Definition get_mp_entries {mp : MPRester} (self : MPChemPotAnalyzer)
    (full_sub_approach : bool) : exn + MPChemPotAnalyzer :=
  '(self, bce_override) ←
    match bulk_ce self with
    | Some b => mret (set_bulk_info self b, true)
    | None =>
        match PyStr.truth (mpid self) with
        | Some id =>
            b ← get_entry_by_material_id id;
            mret (set_bulk_info (set_bulk_ce b self) b, false)
        | None => raise (ValueError "No bulk entry OR mpid supplied.")
        end
    end;
  if full_sub_approach then
    let species_symbols := bulk_species_symbol self ++ sub_species self in
    bd ← get_entries_in_chemsys species_symbols;
    mret (set_entries (mkEntries bd (collect_subs (sub_species self) bd)) self)
  else
    bd ← get_entries_in_chemsys (bulk_species_symbol self);
    self ← match PyStr.truth (mpid self), bce_override with
           | Some id, true =>
               b ← get_entry_by_material_id id; mret (set_bulk_ce b self)
           | _, _ => mret self
           end;
    let bulk_entry_set := entry_id <$> bd in
    subs ← foldM (fetch_sub_entries (bulk_species_symbol self) bulk_entry_set)
                 [] (sub_species self);
    mret (set_entries (mkEntries bd subs) self).

(** *** Stability of the bulk entry (lines 156 to 193) *)

(** The branch taken, that is the message logged. *)
Inductive stability : Type :=
| STABLE_KNOWN            (* debug: stable, composition known *)
| STABLE_NEW              (* info: stable, no entry of this composition *)
| UNSTABLE_KNOWN_PHASE    (* warning: not stable, stable composition exists *)
| UNSTABLE_NEW.           (* warning: not stable, composition unknown *)

(** [round(x, 4)] on rationals: the nearest multiple of 1/10000, a tie
    going to the even one, as in Python 3. *)
Definition round4 (x : Q) : Q :=
  let n := (Qnum x * 10000)%Z in
  let d := Z.pos (Qden x) in
  let f := (n / d)%Z in
  let r := (n mod d)%Z in
  let up :=
    match (2 * r ?= d)%Z with
    | Lt => false
    | Gt => true
    | Eq => Z.odd f
    end in
  Qmake (if up then f + 1 else f) 10000.

Definition stable_composition_exists (pd : PD) (redcomp : Composition)
  : bool :=
  foldl (λ found i,
    if decide (reduced_composition (composition i) = redcomp) then true
    else found) false (stable_entries pd).

Definition classifyStability (pd : PD) (bulk_ce : Entry)
    (redcomp : Composition) (entry_list : list Entry)
  : Q * stability * list Entry :=
  let decomp_en := round4 (get_decomp_and_e_above_hull pd bulk_ce) in
  let stable_composition_exists := stable_composition_exists pd redcomp in
  if Qle_bool decomp_en 0 && stable_composition_exists then
    (decomp_en, STABLE_KNOWN, entry_list)
  else if Qle_bool decomp_en 0 && negb stable_composition_exists then
    (decomp_en, STABLE_NEW, entry_list ++ [bulk_ce])
  else if stable_composition_exists then
    (decomp_en, UNSTABLE_KNOWN_PHASE, entry_list)
  else
    (decomp_en, UNSTABLE_NEW, entry_list).

(** *** The dilute merge (lines 198 to 241) *)

(** The first loop: every facet of the bulk-only solve is filed under the
    label made of its sorted phases. *)
Definition rekey_bulk (chem_lims : ChemLims) : FacetTable :=
  foldl (λ finchem_lims kv,
    let face_list := PyStr.split_dash kv.1 in
    let '(blk, blknom, subnom) := diff_bulk_sub_phases face_list None in
    <[blknom := kv.2]> finchem_lims) ∅ chem_lims.

(** The lines under [if 'name-append' not in finchem_lims[blknom].keys()]:
    the record under [blknom] gets [subnom] as its 'name-append', or has
    ['-' + subnom] added to the one it holds; adding to a value that is not a
    string raises. *)
Definition append_name (blknom subnom : string) (finchem_lims : FacetTable)
  : exn + FacetTable :=
  match finchem_lims !! blknom with
  | None => raise KeyError
  | Some rec =>
      match rec !! name_append with
      | None =>
          mret (<[blknom := <[name_append := VStr subnom]> rec]> finchem_lims)
      | Some (VStr old) =>
          mret (<[blknom :=
                   <[name_append := VStr (old +:+ "-" +:+ subnom)]> rec]>
                finchem_lims)
      | Some (VFloat _) => raise TypeError
      end
  end.

(** The body of [for key in chem_lims.keys()] for one facet of the solve
    augmented with [sub_el]; [n] is [len(self.bulk_species_symbol)]. *)
Definition merge_facet (n : nat) (sub_el : string)
    (finchem_lims : FacetTable) (kv : string * gmap Key Val)
  : exn + FacetTable :=
  let face_list := PyStr.split_dash kv.1 in
  let '(blk, blknom, subnom) :=
    diff_bulk_sub_phases face_list (Some sub_el) in
  (* if one less than number of bulk species then can be grouped with rest
     of structures *)
  if (length blk + 1 =? n)%nat then
    finchem_lims ←
      match finchem_lims !! blknom with
      | None => mret (<[blknom := kv.2]> finchem_lims)
      | Some rec =>
          match kv.2 !! KElement sub_el with
          | None => raise KeyError
          | Some mu => mret (<[blknom := <[KStr sub_el := mu]> rec]> finchem_lims)
          end
      end;
    append_name blknom subnom finchem_lims
  else
    (* chem pots determined by two (or more) sub-specie containing phases:
       skip this facet *)
    mret finchem_lims.

(** The test of line 228 on one facet label. *)
Definition facet_accepted (n : nat) (sub_el : string) (key : string) : bool :=
  let '(blk, _, _) :=
    diff_bulk_sub_phases (PyStr.split_dash key) (Some sub_el) in
  (length blk + 1 =? n)%nat.

(** The body of [for sub_el in self.sub_species]. *)
Definition merge_sub_el {pdlib : PhaseDiagramLib} (bulk_ce : option Entry)
    (n : nat) (entry_list : list Entry) (subs_set : list (string * list Entry))
    (finchem_lims : FacetTable) (sub_el : string) : exn + FacetTable :=
  match alist_get sub_el subs_set with
  | None => raise KeyError
  | Some sub_entries =>
      let sub_specie_entries := entry_list ++ sub_entries in
      pd ← PhaseDiagram sub_specie_entries;
      chem_lims ← get_chempots_from_pd bulk_ce pd;
      foldM (merge_facet n sub_el) finchem_lims chem_lims
  end.

(** The check after the merge. *)
Definition overdependent_chempot (finchem_lims : FacetTable) (n : nat) : bool :=
  negb (size finchem_lims =? n)%nat.

(** The entries appended when the check fires: those of every [sub_el], in
    the order of [subs_set]. *)
Definition all_sub_entries (subs_set : list (string * list Entry))
  : list Entry :=
  concat subs_set.*2.

Definition set_bulk_derived (l : list Entry) (self : MPChemPotAnalyzer) :=
  set_entries (mkEntries l (subs_set (entries self))) self.

(** *** MPChemPotAnalyzer.analyze_GGA_chempots

    The result is the returned dict together with the analyzer after the
    call; [entry_list] is the list object under 'bulk_derived', so what is
    appended to it stays in [self.entries]. *)
Definition analyze_GGA_chempots {pdlib : PhaseDiagramLib} {mp : MPRester}
    (self : MPChemPotAnalyzer) (full_sub_approach : bool)
  : exn + (FacetTable * MPChemPotAnalyzer) :=
  (* gather entries *)
  self ← get_mp_entries self full_sub_approach;
  match bulk_ce self with
  | None => raise AttributeError
  | Some b =>
      let entry_list := bulk_derived (entries self) in
      pd ← PhaseDiagram entry_list;
      let '(decomp_en, status, entry_list) :=
        classifyStability pd b (redcomp self) entry_list in
      pd ← PhaseDiagram entry_list;
      chem_lims ← get_chempots_from_pd (bulk_ce self) pd;
      if negb full_sub_approach then
        let n := length (bulk_species_symbol self) in
        let finchem_lims := rekey_bulk chem_lims in
        finchem_lims ←
          foldM (merge_sub_el (bulk_ce self) n entry_list
                   (subs_set (entries self)))
                finchem_lims (sub_species self);
        if overdependent_chempot finchem_lims n then
          (* overdetermined chempots: forcing the full_sub_approach *)
          let entry_list :=
            entry_list ++ all_sub_entries (subs_set (entries self)) in
          pd ← PhaseDiagram entry_list;
          chem_lims ← get_chempots_from_pd (bulk_ce self) pd;
          mret (dict_of_items chem_lims, set_bulk_derived entry_list self)
        else
          mret (finchem_lims, set_bulk_derived entry_list self)
      else
        mret (dict_of_items chem_lims, set_bulk_derived entry_list self)
  end.

(** The part of [analyze_GGA_chempots] up to the bulk-only solve of line
    196: the analyzer after [get_mp_entries], the entry list after the
    stability branch, and the bulk-only table. *)
Definition bulk_only_solve {pdlib : PhaseDiagramLib} {mp : MPRester}
    (self : MPChemPotAnalyzer) (full_sub_approach : bool)
  : exn + (MPChemPotAnalyzer * list Entry * ChemLims) :=
  self ← get_mp_entries self full_sub_approach;
  match bulk_ce self with
  | None => raise AttributeError
  | Some b =>
      let entry_list := bulk_derived (entries self) in
      pd ← PhaseDiagram entry_list;
      let '(decomp_en, status, entry_list) :=
        classifyStability pd b (redcomp self) entry_list in
      pd ← PhaseDiagram entry_list;
      chem_lims ← get_chempots_from_pd (bulk_ce self) pd;
      mret (self, entry_list, chem_lims)
  end.

(** The table of the dilute path after both loops, before the check. *)
Definition merged_table {pdlib : PhaseDiagramLib}
    (self : MPChemPotAnalyzer) (entry_list : list Entry)
    (chem_lims : ChemLims) : exn + FacetTable :=
  foldM (merge_sub_el (bulk_ce self) (length (bulk_species_symbol self))
           entry_list (subs_set (entries self)))
        (rekey_bulk chem_lims) (sub_species self).

(** ** UserChemPotAnalyzer.read_phase_diagram_and_chempots

    The embedding covers the call with [include_mp_entries=False]; the
    entries read from the folder 'PhaseDiagram' and the entry read from
    'bulk/vasprun.xml' are arguments, [None] when the path does not exist. *)

(** The fake structure of one atom of [elt], with energy [0.]. *)
Definition fake_entry (elt : string) : Entry :=
  mkEntry None {[elt := 1%N]} 0.

(** [eltcount[pentry.composition.elements[0]] += 1] for the pure-element
    entries; the dict has the elements of the bulk as its only keys. *)
Definition count_step (eltcount : gmap string nat) (pentry : Entry)
  : exn + gmap string nat :=
  if is_element pentry then
    match elements (composition pentry) with
    | [] => raise KeyError
    | elt :: _ =>
        match eltcount !! elt with
        | Some c => mret (<[elt := S c]> eltcount)
        | None => raise KeyError
        end
    end
  else mret eltcount.

(** Lines 478 to 492: the bulk entry is appended, the pure-element entries
    are counted per element of the bulk, and a fake entry is appended for
    every element counted zero times, in the order of the dict (here the
    order of the map). *)
Definition add_fake_elements (bulk_ce : Entry)
    (personal_entry_list : list Entry) : exn + list Entry :=
  let personal_entry_list := personal_entry_list ++ [bulk_ce] in
  let eltcount : gmap string nat := (λ _, 0%nat) <$> composition bulk_ce in
  eltcount ← foldM count_step eltcount personal_entry_list;
  mret (foldl (λ l kv, if (kv.2 =? 0)%nat then l ++ [fake_entry kv.1] else l)
              personal_entry_list (map_to_list eltcount)).

(** [bulk_associated] of one entry: no element outside the bulk
    composition. *)
Definition bulk_associated (bulk_elements : list string) (localentry : Entry)
  : bool :=
  foldl (λ ba elt, if decide (elt ∈ bulk_elements) then ba else false)
        true (elements (composition localentry)).

(** One turn of the loop of lines 505 to 514. The [else] branch calls the
    list [sub_associated_entry_list], which raises. *)
Definition separate_step (bulk_elements : list string)
    (acc : list Entry * list Entry) (localentry : Entry)
  : exn + (list Entry * list Entry) :=
  let '(entry_list, sub_associated_entry_list) := acc in
  if bulk_associated bulk_elements localentry then
    mret (entry_list ++ [localentry], sub_associated_entry_list)
  else raise TypeError.

Definition separate_entries (bulk_elements : list string)
    (personal_entry_list : list Entry) : exn + (list Entry * list Entry) :=
  foldM (separate_step bulk_elements) ([], []) personal_entry_list.

Record UserChemPotAnalyzer : Type := mkUser {
  user_bulk_ce : option Entry;
  user_sub_species : list string
}.

(** The facet loop of the local pipeline reads [self.bulk_species_symbol],
    an attribute this class never sets. *)
Definition user_merge_facet (sub_el : string) (finchem_lims : FacetTable)
    (kv : string * gmap Key Val) : exn + FacetTable :=
  let face_list := PyStr.split_dash kv.1 in
  let '(blk, blknom, subnom) :=
    diff_bulk_sub_phases face_list (Some sub_el) in
  raise AttributeError.

Definition user_merge_sub_el {pdlib : PhaseDiagramLib} (bulk_ce : option Entry)
    (entry_list sub_associated_entry_list : list Entry)
    (finchem_lims : FacetTable) (sub_el : string) : exn + FacetTable :=
  let sub_specie_entries :=
    entry_list ++
    filter (λ entry, sub_el ∈ elements (composition entry))
           sub_associated_entry_list in
  pd ← PhaseDiagram sub_specie_entries;
  chem_lims ← get_chempots_from_pd bulk_ce pd;
  foldM (user_merge_facet sub_el) finchem_lims chem_lims.

Definition read_phase_diagram_and_chempots {pdlib : PhaseDiagramLib}
    (self : UserChemPotAnalyzer)
    (pdfile : option (list Entry)) (bulk_vasprun : option Entry)
    (full_sub_approach : bool) : exn + option FacetTable :=
  match pdfile with
  | None => mret None
  | Some personal_entry_list =>
      let bulk := match user_bulk_ce self with
                  | Some b => Some b
                  | None => bulk_vasprun
                  end in
      match bulk with
      | None => mret None
      | Some b =>
          let bulk_composition := composition b in
          personal_entry_list ← add_fake_elements b personal_entry_list;
          let personal_entry_list := personal_entry_list ++ [b] in
          (* compute chemical potentials *)
          if full_sub_approach then
            pd ← PhaseDiagram personal_entry_list;
            chem_lims ← get_chempots_from_pd (Some b) pd;
            mret (Some (dict_of_items chem_lims))
          else
            '(entry_list, sub_associated_entry_list) ←
              separate_entries (elements bulk_composition) personal_entry_list;
            pd ← PhaseDiagram entry_list;
            chem_lims ← get_chempots_from_pd (Some b) pd;
            let finchem_lims := rekey_bulk chem_lims in
            finchem_lims ←
              foldM (user_merge_sub_el (Some b) entry_list
                       sub_associated_entry_list)
                    finchem_lims (user_sub_species self);
            mret (Some finchem_lims)
      end
  end.

(** ** Labels *)

(** The label under which the first loop files a facet: its phases sorted
    and joined by dashes. *)
Definition canonical_label (key : string) : string :=
  PyStr.join "-" (PyStr.sort (PyStr.split_dash key)).

(** ** A small system: GaN, with Mn as substitutional species *)

Module Example.

Definition Ga : Entry := mkEntry (Some "mp-142") {["Ga" := 1%N]} (-3).
Definition N2 : Entry := mkEntry (Some "mp-154") {["N" := 2%N]} (-16).
Definition GaN : Entry :=
  mkEntry (Some "mp-804") (<["Ga" := 1%N]> {["N" := 1%N]}) (-12).
Definition Mn : Entry := mkEntry (Some "mp-35") {["Mn" := 1%N]} (-9).

(** A phase diagram library with fixed hull data: the same stable
    entries, energy above hull and facets for every list of entries. *)
Definition fixed_pd (stable : list Entry) (e_hull : Q)
    (table : list (string * gmap Key Val)) : PhaseDiagramLib :=
  λ entries, inr (mkPD entries stable (λ _, e_hull) (λ _, inr table)).

(** A database with a fixed answer. *)
Definition fixed_mp (l : list Entry) (b : Entry) : MPRester :=
  mkMPRester (λ _, inr l) (λ _, inr b).

Definition mu (ga n : Q) : gmap Key Val :=
  <[KElement "Ga" := VFloat ga]> {[KElement "N" := VFloat n]}.

(** GaN on the hull, between Ga and N2; the facets are named in the order
    of the hull's vertices. *)
Definition stable_table : list (string * gmap Key Val) :=
  [("GaN-Ga", mu (-3) (-9)); ("N2-GaN", mu (-4) (-8))].
Definition stable_lib : PhaseDiagramLib :=
  fixed_pd [Ga; GaN; N2] 0 stable_table.

(** GaN above the hull of Ga and N2, with no stable entry of its
    composition: one facet contains the composition. *)
Definition unstable_table : list (string * gmap Key Val) :=
  [("Ga-N2", mu (-3) (-8))].
Definition unstable_lib : PhaseDiagramLib :=
  fixed_pd [Ga; N2] (1 # 2) unstable_table.

Definition mp_with_GaN : MPRester := fixed_mp [Ga; N2; GaN] GaN.
Definition mp_without_GaN : MPRester := fixed_mp [Ga; N2] GaN.

(** The analyzer built with [bulk_ce=GaN] and no substitutional
    species. *)
Definition analyzer : MPChemPotAnalyzer :=
  mkMP (Some GaN) [] (mkEntries [] []) None [] ∅.

Definition mu_Mn : gmap Key Val :=
  <[KElement "Mn" := VFloat (-7)]> (mu (-3) (-9)).

Definition user : UserChemPotAnalyzer := mkUser (Some GaN) ["Mn"].

(** The analyzer after [get_mp_entries] has answered with [bd]. *)
Definition after_mp (bd : list Entry) : MPChemPotAnalyzer :=
  mkMP (Some GaN) [] (mkEntries bd []) None ["Ga"; "N"] (composition GaN).

(** The one facet of [unstable_table] as a dict: the bulk-only table,
    and the merged table when there is nothing to merge. *)
Definition unstable_dict : gmap string (gmap Key Val) :=
  {["Ga-N2" := mu (-3) (-8)]}.

(** The table of [stable_table] filed under sorted labels. *)
Definition stable_sorted : gmap string (gmap Key Val) :=
  <["Ga-GaN" := mu (-3) (-9)]> {["GaN-N2" := mu (-4) (-8)]}.


(** The system with Mn: the solve of any list with an entry containing Mn
    gives three facets around GaN, two with one phase containing Mn and one
    with two; the database answers with the Mn entries when asked for
    Mn. *)
Definition MnN : Entry :=
  mkEntry (Some "mp-13") (<["Mn" := 1%N]> {["N" := 1%N]}) (-15).
Definition doped_table : list (string * gmap Key Val) :=
  [("GaN-Ga-Mn", mu_Mn);
   ("N2-GaN-MnN", <[KElement "Mn" := VFloat (-11)]> (mu (-4) (-8)));
   ("GaN-MnN-Mn", <[KElement "Mn" := VFloat (-9)]> (mu (-6) (-6)))].
Definition doped_lib : PhaseDiagramLib :=
  λ entries,
    inr (mkPD entries [Ga; GaN; N2; Mn; MnN] (λ _, 0%Q)
           (λ _, inr (if existsb (in_composition "Mn") entries
                      then doped_table else stable_table))).
Definition mp_doped : MPRester :=
  mkMPRester
    (λ syms, inr (if decide ("Mn" ∈ syms) then [Ga; N2; GaN; Mn; MnN]
                  else [Ga; N2; GaN]))
    (λ _, inr GaN).
Definition analyzer_Mn : MPChemPotAnalyzer :=
  mkMP (Some GaN) ["Mn"] (mkEntries [] []) None [] ∅.
Definition after_mp_Mn (bd : list Entry) : MPChemPotAnalyzer :=
  mkMP (Some GaN) ["Mn"] (mkEntries bd [("Mn", [Mn; MnN])]) None
       ["Ga"; "N"] (composition GaN).

(** The merged table of the system with Mn: the facet with two phases
    containing Mn is filed under the label GaN. *)
Definition doped_merged : gmap string (gmap Key Val) :=
  <["GaN" := <[name_append := VStr "Mn-MnN"]>
               (<[KElement "Mn" := VFloat (-9)]> (mu (-6) (-6)))]>
    stable_sorted.

End Example.

(** ** Further definitions *)

(** A phase name without a dash: a piece that [split('-')] can return. *)
Fixpoint dash_free (s : string) : bool :=
  match s with
  | EmptyString => true
  | String c s' => negb (Ascii.eqb c "-"%char) && dash_free s'
  end.

(** The number of phases of a facet name that contain [sub_el]. *)
Definition sub_phase_count (sub_el : string) (key : string) : nat :=
  length (filter (λ f, in_sub (Some sub_el) f) (PyStr.split_dash key)).

(** A dict of chemical potentials as pymatgen returns it: keyed by
    [Element] objects only. *)
Definition element_keyed (vec : gmap Key Val) : Prop :=
  ∀ k, is_Some (vec !! k) → ∃ e, k = KElement e.

(** A merged table in which every 'name-append' is a string. *)
Definition names_are_strings (fin : gmap string (gmap Key Val)) : Prop :=
  ∀ L rec x, fin !! L = Some rec → rec !! name_append ≠ Some (VFloat x).

(** The bulk label of a facet name with respect to [sub_el]. *)
Definition bulk_label (sub_el : string) (key : string) : string :=
  (diff_bulk_sub_phases (PyStr.split_dash key) (Some sub_el)).1.2.

(** ** MPChemPotAnalyzer.get_chempots_from_composition *)

(** What the method reads of [self.entries]: whether the dict is empty,
    and the list under 'bulk_derived' when there is one. *)
Inductive entries_dict : Type :=
| EmptyDict                          (* {} *)
| OtherKeysOnly                      (* not empty, no 'bulk_derived' *)
| WithBulkDerived (bd : list Entry). (* 'bulk_derived' is a key *)

(** The call returns the table and leaves the dict and, when it has set
    it, the attribute [bulk_species_symbol]. *)
Definition get_chempots_from_composition
    {pdlib : PhaseDiagramLib} {mp : MPRester}
    (entries : entries_dict) (bulk_composition : Composition)
  : exn + (ChemLims * entries_dict * option (list string)) :=
  let redcomp := reduced_composition bulk_composition in
  '(entries, symbols) ←
    match entries with
    | EmptyDict =>
        let bulk_species_symbol := elements redcomp in
        bd ← get_entries_in_chemsys bulk_species_symbol;
        mret (WithBulkDerived bd, Some bulk_species_symbol)
    | _ => mret (entries, None)
    end;
  match entries with
  | WithBulkDerived bd =>
      pd ← PhaseDiagram bd;
      chem_lims ← get_all_chempots pd redcomp;
      mret (chem_lims, entries, symbols)
  | _ => raise KeyError
  end.

(** ** UserChemPotInputGenerator.setup_phase_diagram_calculations *)

(** What the method uses of pymatgen beyond the phase diagram: the name
    of an entry and the structure the database holds for an id. *)
Class StructureLib : Type := mkStructureLib {
  Structure : Type;
  entry_name : Entry → string;
  get_structure_by_material_id : option string → exn + Structure
}.

(** [str(entry.entry_id)] *)
Definition str_id (id : option string) : string :=
  match id with
  | Some s => s
  | None => "None"
  end.

(** [phase.split('_')[0]]: the name up to its first underscore. *)
Fixpoint before_underscore (s : string) : string :=
  match s with
  | EmptyString => EmptyString
  | String c s' =>
      if Ascii.eqb c "_"%char then EmptyString
      else String c (before_underscore s')
  end.

(** What the method does to the file system: directories made and
    structures written, paths relative to [path_base]. *)
Inductive fs_action {S : Type} : Type :=
| MakeDirs (path : list string)
| WriteStructure (st : S) (fmt : string) (path : list string).
Arguments fs_action : clear implicits.

(** The generator keeps its own analyzer [self.MPC], made in [__init__]
    and used by this method only: its dict is empty ([None]) or has
    'bulk_derived' as its only key. *)
Record UserChemPotInputGenerator : Type := mkGen {
  gen_bulk_composition : Composition;
  gen_MPC_entries : option (list Entry)
}.

(** The phases to set up. *)
Definition setupphases {sl : StructureLib} (full_phase_diagram : bool)
    (bulk_composition : Composition) (entries : list Entry)
    (MPgga_muvals : ChemLims) : list string :=
  if full_phase_diagram then entry_name <$> entries
  else
    let phases := MPgga_muvals.*1 ≫= PyStr.split_dash in
    if (size bulk_composition =? 2)%nat then before_underscore <$> phases
    else phases.

(** The test of the loop over the entries. *)
Definition to_set_up {sl : StructureLib} (phases : list string) (pd : PD)
    (energy_above_hull : Q) (entry : Entry) : bool :=
  bool_decide (entry_name entry ∈ phases) &&
  Qle_bool (get_decomp_and_e_above_hull pd entry) energy_above_hull.

(** The key of an entry in [structures_to_setup]. *)
Definition setup_key {sl : StructureLib} (entry : Entry) : string :=
  str_id (entry_id entry) +:+ "_" +:+ entry_name entry.

(** One turn of the loop over the entries. *)
Definition setup_step {sl : StructureLib} (phases : list string) (pd : PD)
    (energy_above_hull : Q)
    (structures_to_setup : list (string * Structure)) (entry : Entry)
  : exn + list (string * Structure) :=
  if to_set_up phases pd energy_above_hull entry then
    localstruct ← get_structure_by_material_id (entry_id entry);
    mret (alist_set (setup_key entry) localstruct structures_to_setup)
  else mret structures_to_setup.

(** The files written for the structures, unless the folder exists. *)
Definition write_structures {sl : StructureLib} (exists_dir : bool)
    (struct_fmt : string) (structures_to_setup : list (string * Structure))
  : list (fs_action Structure) :=
  if exists_dir then []
  else
    MakeDirs ["PhaseDiagram"] ::
    (structures_to_setup ≫= λ kv,
       let filename := ["PhaseDiagram"; kv.1] in
       let outputname :=
         if String.eqb struct_fmt "poscar" then "POSCAR" else "structfile" in
       [MakeDirs filename;
        WriteStructure kv.2 struct_fmt (filename ++ [outputname])]).

(** The result is the dict returned, the actions on the file system and
    the generator after the call; [exists_dir] tells whether the folder
    'PhaseDiagram' exists. *)
Definition setup_phase_diagram_calculations
    {pdlib : PhaseDiagramLib} {mp : MPRester} {sl : StructureLib}
    (self : UserChemPotInputGenerator) (exists_dir : bool)
    (full_phase_diagram : bool) (energy_above_hull : Q) (struct_fmt : string)
  : exn + (list (string * Structure) * list (fs_action Structure)
           * UserChemPotInputGenerator) :=
  '(MPgga_muvals, entries, _) ←
    get_chempots_from_composition
      (match gen_MPC_entries self with
       | None => EmptyDict
       | Some bd => WithBulkDerived bd
       end)
      (gen_bulk_composition self);
  match entries with
  | WithBulkDerived full_structure_entries =>
      let phases :=
        setupphases full_phase_diagram (gen_bulk_composition self)
          full_structure_entries MPgga_muvals in
      pd ← PhaseDiagram full_structure_entries;
      structures_to_setup ←
        foldM (setup_step phases pd energy_above_hull) []
              full_structure_entries;
      mret (structures_to_setup,
            write_structures exists_dir struct_fmt structures_to_setup,
            mkGen (gen_bulk_composition self) (Some full_structure_entries))
  | _ => raise KeyError
  end.

(** ** More worked inputs *)

Module Cases.
Import Example.

(** An analyzer with neither bulk entry nor id. *)
Definition analyzer_empty : MPChemPotAnalyzer :=
  mkMP None [] (mkEntries [] []) None [] ∅.

(** An analyzer given the entry MnN and the id of GaN, and what the
    dilute branch of [get_mp_entries] makes of it. *)
Definition analyzer_both : MPChemPotAnalyzer :=
  mkMP (Some MnN) [] (mkEntries [] []) (Some "mp-804") [] ∅.
Definition after_both : MPChemPotAnalyzer :=
  mkMP (Some GaN) [] (mkEntries [Ga; N2; GaN] []) (Some "mp-804")
       (elements (composition MnN))
       (reduced_composition (composition MnN)).

(** A second GaN entry, 0.1 above the hull, and a library that knows
    it. *)
Definition GaN_zb : Entry :=
  mkEntry (Some "mp-830") (<["Ga" := 1%N]> {["N" := 1%N]}) (-11).
Definition setup_lib : PhaseDiagramLib :=
  λ entries,
    inr (mkPD entries [Ga; GaN; N2]
           (λ e, if bool_decide (entry_id e = Some "mp-830")
                 then (1 # 10)%Q else 0%Q)
           (λ _, inr stable_table)).
Definition setup_mp : MPRester := fixed_mp [Ga; N2; GaN; GaN_zb] GaN.

(** Names by id, and structures that are the text of their id. *)
Definition names : StructureLib :=
  mkStructureLib string
    (λ e, if bool_decide (entry_id e = Some "mp-142") then "Ga"
          else if bool_decide (entry_id e = Some "mp-154") then "N2"
          else "GaN")
    (λ id, inr (str_id id)).

(** A generator for GaN before and after its first call. *)
Definition generator : UserChemPotInputGenerator :=
  mkGen (composition GaN) None.
Definition generator' : UserChemPotInputGenerator :=
  mkGen (composition GaN) (Some [Ga; N2; GaN; GaN_zb]).

(** The structures set up for the thresholds 0 and 0.1. *)
Definition on_hull : list (string * string) :=
  [("mp-142_Ga", "mp-142"); ("mp-154_N2", "mp-154");
   ("mp-804_GaN", "mp-804")].
Definition near_hull : list (string * string) :=
  on_hull ++ [("mp-830_GaN", "mp-830")].

End Cases.

(** ** Facet equations *)


(** The phases a facet label names: a label is ['-'.join] of the names
    of its phases, the empty label that of no phase. *)
Definition label_phases (L : string) : list string :=
  match L with
  | EmptyString => []
  | _ => PyStr.split_dash L
  end.

(** The chemical potential of an element in a vector: the float under
    its [Element] key. *)
Definition chempot (vec : gmap Key Val) (el : string) : option Q :=
  match vec !! KElement el with
  | Some (VFloat x) => Some x
  | _ => None
  end.

(** The sum over the elements [e] of a composition of [n(e)] times
    [mu(e)]; undefined when the vector lacks an element. *)
Definition chempot_sum (vec : gmap Key Val) (c : Composition) : option Q :=
  foldr (λ en acc,
           a ← acc; m ← chempot vec en.1;
           Some (inject_Z (Z.of_N en.2) * m + a)%Q)
        (Some 0%Q) (map_to_list c).

(** The vector, put into the equation of a phase, gives the energy of
    the phase within [tol]. *)
Definition reproduces (tol : Q) (vec : gmap Key Val) (e : Entry) : bool :=
  match chempot_sum vec (composition e) with
  | Some s => Qle_bool (s - energy e) tol && Qle_bool (energy e - s) tol
  | None => false
  end.

(** Every phase that the label names is an entry of [universe] whose
    energy the vector reproduces. *)
Definition facet_solved {sl : StructureLib} (tol : Q)
    (universe : list Entry) (L : string) (vec : gmap Key Val) : Prop :=
  ∀ p, p ∈ label_phases L →
    ∃ e, e ∈ universe ∧ entry_name e = p ∧ reproduces tol vec e = true.

(** The same as a test. *)
Definition facet_solvedb {sl : StructureLib} (tol : Q)
    (universe : list Entry) (L : string) (vec : gmap Key Val) : bool :=
  forallb (λ p, existsb (λ e, String.eqb (entry_name e) p &&
                              reproduces tol vec e) universe)
          (label_phases L).

(** Modelled from the spec: the postcondition of the solve, which is
    pymatgen's and not part of the sources. A phase diagram keeps the
    entries it is built from, and every facet of a table it returns is
    named after entries among them whose energies its vector reproduces
    within the tolerance. *)
Definition solver_postcondition {pdlib : PhaseDiagramLib}
    {sl : StructureLib} (tol : Q) : Prop :=
  ∀ entries pd, PhaseDiagram entries = inr pd →
    all_entries pd = entries ∧
    ∀ c cl key vec, get_all_chempots pd c = inr cl → (key, vec) ∈ cl →
      facet_solved tol entries key vec.

(** ** Worked inputs with energies on the hull *)

(** GaN doped with Mn. With these energies GaN (1 below Ga and N2) and
    MnN (0.5 below Mn and N2) are stable, and the hull of the three
    elements has the facets GaN-Ga-Mn, N2-GaN-MnN and GaN-MnN-Mn, all
    three at the composition of GaN. *)
Module Doped.
Import Example.

Definition MnN : Entry :=
  mkEntry (Some "mp-13") (<["Mn" := 1%N]> {["N" := 1%N]}) (-35 # 2).

Definition mu3 (ga n mn : Q) : gmap Key Val :=
  <[KElement "Mn" := VFloat mn]> (mu ga n).

(** The vectors that solve the three facets. *)
Definition ternary_table : list (string * gmap Key Val) :=
  [("GaN-Ga-Mn", mu3 (-3) (-9) (-9));
   ("N2-GaN-MnN", mu3 (-4) (-8) (-19 # 2));
   ("GaN-MnN-Mn", mu3 (-7 # 2) (-17 # 2) (-9))].

(** The names of the entries, by id. *)
Definition phase_names : StructureLib :=
  mkStructureLib string
    (λ e, default "" (alist_get (str_id (entry_id e))
                        [("mp-142", "Ga"); ("mp-154", "N2");
                         ("mp-804", "GaN"); ("mp-35", "Mn");
                         ("mp-13", "MnN")]))
    (λ id, inr (str_id id)).

(** A library that answers with the stable entries among those given
    and with the facets of the hull whose phases are among them: the two
    facets of Ga, N2 and GaN without Mn, the three facets above with
    it. *)
Definition hull_lib : PhaseDiagramLib :=
  λ entries,
    inr (mkPD entries
           (filter (λ e, entry_id e ∈ entry_id <$> entries)
                   [Ga; GaN; N2; Mn; MnN])
           (λ _, 0%Q)
           (λ _, inr (filter
                        (λ kv, facet_solvedb (sl:=phase_names) (1 # 1000000)
                                 entries kv.1 kv.2)
                        (if existsb (in_composition "Mn") entries
                         then ternary_table else stable_table)))).

Definition mp : MPRester :=
  mkMPRester
    (λ syms, inr (if decide ("Mn" ∈ syms) then [Ga; N2; GaN; Mn; MnN]
                  else [Ga; N2; GaN]))
    (λ _, inr GaN).

(** The analyzer after the analysis has escalated. *)
Definition escalated : MPChemPotAnalyzer :=
  mkMP (Some GaN) ["Mn"]
       (mkEntries [Ga; N2; GaN; Mn; MnN] [("Mn", [Mn; MnN])]) None
       ["Ga"; "N"] (composition GaN).

(** The table of the bulk-only solve under sorted labels, and with the
    one facet the merge of Mn accepts. *)
Definition merged : gmap string (gmap Key Val) :=
  <["GaN" := <[name_append := VStr "Mn-MnN"]>
               (mu3 (-7 # 2) (-17 # 2) (-9))]> stable_sorted.

End Doped.

(** NiO doped with nitrogen. *)
Module Oxide.

Definition Ni : Entry := mkEntry (Some "mp-23") {["Ni" := 1%N]} (-5).
Definition O2 : Entry := mkEntry (Some "mp-12957") {["O" := 2%N]} (-10).
Definition NiO : Entry :=
  mkEntry (Some "mp-19009") (<["Ni" := 1%N]> {["O" := 1%N]}) (-12).

End Oxide.

(** * Properties *)

(** ** Strings *)

Module PyStrFacts.

Lemma sort_sorted l : Sorted String.le (PyStr.sort l).
Proof. apply (Sorted_merge_sort String.le). Qed.

Lemma sort_perm l : PyStr.sort l ≡ₚ l.
Proof. apply (merge_sort_Permutation String.le). Qed.

(** The sorted list depends on the members only, not on their order. *)
Lemma sort_of_perm l1 l2 : l1 ≡ₚ l2 → PyStr.sort l1 = PyStr.sort l2.
Proof.
  intros Hp. apply (Sorted_unique String.le); try apply sort_sorted.
  by rewrite !sort_perm.
Qed.

Lemma prefix_app sub s : String.prefix sub s = true ↔ ∃ b, s = sub +:+ b.
Proof.
  revert s. induction sub as [|a sub IH]; intros s.
  - destruct s; simpl; split; eauto.
  - destruct s as [|c s]; simpl.
    + split; [done | intros [b Hb]; done].
    + destruct (Ascii.ascii_dec a c) as [->|Hne].
      * rewrite IH. split; intros [b Hb]; exists b; simpl in *.
        -- by rewrite Hb.
        -- by injection Hb.
      * split; [done | intros [b Hb]; simpl in Hb; injection Hb as -> _; done].
Qed.

(** [contains] is the test for a contiguous piece. *)
Lemma contains_spec sub s :
  PyStr.contains sub s = true ↔ ∃ a b, s = a +:+ sub +:+ b.
Proof.
  induction s as [|c s IH].
  - cbn [PyStr.contains]. rewrite orb_false_r, prefix_app. split.
    + intros [b Hb]. by exists EmptyString, b.
    + intros [[|x a] [b Hb]]; [by exists b | done].
  - cbn [PyStr.contains]. rewrite orb_true_iff, prefix_app, IH. split.
    + intros [[b Hb]|(a & b & Hab)].
      * by exists EmptyString, b.
      * exists (String c a), b. simpl. by rewrite Hab.
    + intros ([|x a] & b & Hab).
      * left. by exists b.
      * right. exists a, b. simpl in Hab. by injection Hab.
Qed.

End PyStrFacts.

(** ** The facet partitioner *)

Section Partition.
Implicit Types (face_list blk sub_spcs : list string) (sub_el : option string).

Lemma diff_step_in_sub sub_el blk sub_spcs face :
  diff_step sub_el (blk, sub_spcs) face =
    if in_sub sub_el face then (blk, sub_spcs ++ [face])
    else (blk ++ [face], sub_spcs).
Proof.
  unfold diff_step, in_sub. by destruct (PyStr.truth sub_el).
Qed.

(** The loop files every phase, in order, under the list its test
    selects. *)
Lemma diff_loop sub_el face_list : ∀ blk sub_spcs,
  foldl (diff_step sub_el) (blk, sub_spcs) face_list =
    (blk ++ filter (λ f, ¬ in_sub sub_el f) face_list,
     sub_spcs ++ filter (λ f, in_sub sub_el f) face_list).
Proof.
  induction face_list as [|face rest IH]; intros blk sub_spcs.
  - by rewrite !app_nil_r.
  - cbn [foldl]. rewrite diff_step_in_sub, !filter_cons.
    destruct (in_sub sub_el face) eqn:Hc; rewrite IH.
    + rewrite decide_False, decide_True by (simpl; auto).
      by rewrite <- app_assoc.
    + rewrite decide_True, decide_False by (simpl; auto).
      by rewrite <- app_assoc.
Qed.

Lemma diff_bulk_sub_lists_eq face_list sub_el :
  diff_bulk_sub_lists face_list sub_el =
    (PyStr.sort (filter (λ f, ¬ in_sub sub_el f) face_list),
     PyStr.sort (filter (λ f, in_sub sub_el f) face_list)).
Proof. unfold diff_bulk_sub_lists. by rewrite diff_loop. Qed.

Lemma filter_split (P : string → Prop) `{∀ x, Decision (P x)} face_list :
  filter (λ f, ¬ P f) face_list ++ filter P face_list ≡ₚ face_list.
Proof.
  induction face_list as [|f l IH]; [done|].
  rewrite !filter_cons. destruct (decide (P f)).
  - rewrite decide_False by tauto. by rewrite <- Permutation_middle, IH.
  - rewrite decide_True by tauto. simpl. by rewrite IH.
Qed.

Lemma in_sub_unset sub_el f : PyStr.truth sub_el = None → in_sub sub_el f = false.
Proof. unfold in_sub. by intros ->. Qed.

Lemma filter_all (P : string → Prop) `{∀ x, Decision (P x)} face_list :
  (∀ f, P f) → filter P face_list = face_list.
Proof.
  intros HP. induction face_list as [|f l IH]; [done|].
  rewrite filter_cons. destruct (decide (P f)) as [_|Hn]; [by rewrite IH|].
  by destruct Hn.
Qed.

Lemma filter_none (P : string → Prop) `{∀ x, Decision (P x)} face_list :
  (∀ f, ¬ P f) → filter P face_list = [].
Proof.
  intros HP. induction face_list as [|f l IH]; [done|].
  rewrite filter_cons. destruct (decide (P f)) as [Hy|_]; [|done].
  by destruct (HP f).
Qed.

Lemma diff_bulk_sub_phases_unset face_list sub_el :
  PyStr.truth sub_el = None →
  diff_bulk_sub_phases face_list sub_el =
    (PyStr.sort face_list, PyStr.join "-" (PyStr.sort face_list), "").
Proof.
  intros Hn. unfold diff_bulk_sub_phases. rewrite diff_bulk_sub_lists_eq.
  rewrite filter_all, filter_none; [done|..];
    intros f; rewrite in_sub_unset by done; simpl; tauto.
Qed.

(** The partition as the code makes it, by the text of the labels: the
    bulk subset is made of exactly the phases whose label does not have
    the target symbol as a part of its text (every phase when the target
    is unset), the substitutional subset of exactly the others; each
    phase of the input is in exactly one of the two, as often as it
    occurs in the input. The labels are the two subsets, sorted, joined
    by dashes. *)
Lemma diff_bulk_sub_phases_partition face_list sub_el :
  let '(blk, sub_spcs) := diff_bulk_sub_lists face_list sub_el in
  diff_bulk_sub_phases face_list sub_el
    = (blk, PyStr.join "-" blk, PyStr.join "-" sub_spcs) ∧
  blk ≡ₚ filter (λ f, ¬ in_sub sub_el f) face_list ∧
  sub_spcs ≡ₚ filter (λ f, in_sub sub_el f) face_list ∧
  blk ++ sub_spcs ≡ₚ face_list ∧
  (∀ f, f ∈ blk ↔ f ∈ face_list ∧ ¬ in_sub sub_el f) ∧
  (∀ f, f ∈ sub_spcs ↔ f ∈ face_list ∧ in_sub sub_el f) ∧
  (∀ f, f ∈ face_list ↔ (f ∈ blk ∧ f ∉ sub_spcs) ∨ (f ∈ sub_spcs ∧ f ∉ blk)) ∧
  Sorted String.le blk ∧ Sorted String.le sub_spcs ∧
  match PyStr.truth sub_el with
  | None => blk ≡ₚ face_list ∧ sub_spcs = []
  | Some s => ∀ f, in_sub sub_el f ↔ ∃ a b, f = a +:+ s +:+ b
  end.
Proof.
  pose proof (diff_bulk_sub_lists_eq face_list sub_el) as Heq.
  unfold diff_bulk_sub_phases.
  destruct (diff_bulk_sub_lists face_list sub_el) as [blk sub_spcs].
  injection Heq as Hb Hs.
  assert (Hpb : blk ≡ₚ filter (λ f, ¬ in_sub sub_el f) face_list)
    by (rewrite Hb; apply PyStrFacts.sort_perm).
  assert (Hps : sub_spcs ≡ₚ filter (λ f, in_sub sub_el f) face_list)
    by (rewrite Hs; apply PyStrFacts.sort_perm).
  assert (Hinb : ∀ f, f ∈ blk ↔ f ∈ face_list ∧ ¬ in_sub sub_el f).
  { intros f. rewrite Hpb, list_elem_of_filter. tauto. }
  assert (Hins : ∀ f, f ∈ sub_spcs ↔ f ∈ face_list ∧ in_sub sub_el f).
  { intros f. rewrite Hps, list_elem_of_filter. tauto. }
  split_and!; try done.
  - rewrite Hpb, Hps. apply filter_split.
  - intros f. rewrite !Hinb, !Hins.
    destruct (in_sub sub_el f); simpl; tauto.
  - rewrite Hb. apply PyStrFacts.sort_sorted.
  - rewrite Hs. apply PyStrFacts.sort_sorted.
  - destruct (PyStr.truth sub_el) as [s|] eqn:Ht.
    + intros f. unfold in_sub. rewrite Ht, Is_true_true.
      apply PyStrFacts.contains_spec.
    + pose proof (diff_bulk_sub_phases_unset face_list sub_el Ht) as Hu.
      unfold diff_bulk_sub_phases in Hu.
      rewrite diff_bulk_sub_lists_eq, <- Hb, <- Hs in Hu.
      split.
      * injection Hu as -> _ _. apply PyStrFacts.sort_perm.
      * apply Permutation_nil_r. rewrite Hps, filter_none; [done|].
        intros f. rewrite in_sub_unset by done. simpl; tauto.
Qed.

(** C6. The result is a function of the phases as a collection: any
    reordering of the input gives the same bulk list and the same two
    labels. *)
Theorem diff_bulk_sub_phases_perm face_list face_list' sub_el :
  face_list ≡ₚ face_list' →
  diff_bulk_sub_phases face_list sub_el
    = diff_bulk_sub_phases face_list' sub_el.
Proof.
  intros Hp. unfold diff_bulk_sub_phases. rewrite !diff_bulk_sub_lists_eq.
  rewrite (PyStrFacts.sort_of_perm
             (filter (λ f, ¬ in_sub sub_el f) face_list)
             (filter (λ f, ¬ in_sub sub_el f) face_list')) by (by rewrite Hp).
  rewrite (PyStrFacts.sort_of_perm
             (filter (λ f, in_sub sub_el f) face_list)
             (filter (λ f, in_sub sub_el f) face_list')) by (by rewrite Hp).
  done.
Qed.

End Partition.

Lemma diff_bulk_sub_phases_perm_witness :
  ["N2"; "GaN"; "MnN"; "Ga"] ≡ₚ ["Ga"; "MnN"; "N2"; "GaN"] ∧
  diff_bulk_sub_phases ["N2"; "GaN"; "MnN"; "Ga"] (Some "Mn")
    = diff_bulk_sub_phases ["Ga"; "MnN"; "N2"; "GaN"] (Some "Mn").
Proof.
  assert (Hp : ["N2"; "GaN"; "MnN"; "Ga"] ≡ₚ ["Ga"; "MnN"; "N2"; "GaN"])
    by solve_Permutation.
  split; [exact Hp|].
  apply (diff_bulk_sub_phases_perm _ _ (Some "Mn") Hp).
Defined.

(** ** Stability of the bulk entry *)

Section Stability.

Lemma round4_cases x :
  let n := (Qnum x * 10000)%Z in
  let d := Z.pos (Qden x) in
  ∃ m : Z, round4 x = Qmake m 10000 ∧
           (2 * d * m ≤ 2 * n + d)%Z ∧ (2 * n - d ≤ 2 * d * m)%Z.
Proof.
  intros n d. unfold round4. fold n d.
  assert (Hd : (0 < d)%Z) by done.
  pose proof (Z.div_mod n d ltac:(lia)) as Hdm.
  pose proof (Z.mod_pos_bound n d Hd) as Hb.
  clearbody n d.
  set (f := (n / d)%Z) in *. set (r := (n mod d)%Z) in *.
  clearbody f r. subst n.
  destruct (Z.compare_spec (2 * r) d) as [Hc|Hc|Hc].
  - destruct (Z.odd f); eexists; (split; [reflexivity|]); cbn beta iota; lia.
  - eexists; (split; [reflexivity|]); cbn beta iota; lia.
  - eexists; (split; [reflexivity|]); cbn beta iota; lia.
Qed.

(** [round4 x] is a multiple of 1/10000 at distance at most 1/20000 of
    [x]. *)
Lemma round4_near x :
  (∃ m : Z, round4 x = Qmake m 10000) ∧
  (x - (1 # 20000) <= round4 x)%Q ∧ (round4 x <= x + (1 # 20000))%Q.
Proof.
  destruct (round4_cases x) as (m & -> & Hup & Hlo).
  split; [by exists m|].
  destruct x as [a d]. unfold Qle, Qminus, Qplus, Qopp. simpl in *.
  split; nia.
Qed.

Lemma stable_composition_exists_spec pd redcomp :
  stable_composition_exists pd redcomp = true ↔
  ∃ i, i ∈ stable_entries pd ∧
       reduced_composition (composition i) = redcomp.
Proof.
  unfold stable_composition_exists.
  assert (∀ l found,
    foldl (λ found i,
      if decide (reduced_composition (composition i) = redcomp) then true
      else found) found l = true ↔
    found = true ∨
    ∃ i, i ∈ l ∧ reduced_composition (composition i) = redcomp) as Hgen.
  { induction l as [|i l IH]; intros found; simpl.
    - split; [auto|]. intros [?|(i & Hi & _)]; [done|]. by apply elem_of_nil in Hi.
    - rewrite IH. split.
      + intros [Hf|(j & Hj & Hr)].
        * destruct (decide _) as [Hr|_]; [|auto].
          right. exists i. split; [left|done].
        * right. exists j. split; [by right|done].
      + intros [->|(j & Hj & Hr)].
        * left. by destruct (decide _).
        * apply elem_of_cons in Hj as [->|Hj].
          -- left. by rewrite decide_True.
          -- right. eauto. }
  rewrite Hgen. split; [intros [?|?]; [done|auto] | auto].
Qed.

(** C2. The decomposition energy is the energy above the hull of the bulk
    entry rounded to four decimals. Of the four cases only the one with
    energy at most zero and no stable entry of the bulk's reduced
    composition changes the entry list: the bulk entry is appended once,
    so the list is longer by one; in the three other cases the list is
    the one given. *)
Theorem classifyStability_spec pd bulk_ce redcomp entry_list :
  let '(decomp_en, status, entry_list') :=
    classifyStability pd bulk_ce redcomp entry_list in
  let e := get_decomp_and_e_above_hull pd bulk_ce in
  let known := ∃ i, i ∈ stable_entries pd ∧
                    reduced_composition (composition i) = redcomp in
  decomp_en = round4 e ∧
  (∃ m : Z, decomp_en = Qmake m 10000) ∧
  (e - (1 # 20000) <= decomp_en)%Q ∧ (decomp_en <= e + (1 # 20000))%Q ∧
  (status = STABLE_KNOWN ↔ (decomp_en <= 0)%Q ∧ known) ∧
  (status = STABLE_NEW ↔ (decomp_en <= 0)%Q ∧ ¬ known) ∧
  (status = UNSTABLE_KNOWN_PHASE ↔ ¬ (decomp_en <= 0)%Q ∧ known) ∧
  (status = UNSTABLE_NEW ↔ ¬ (decomp_en <= 0)%Q ∧ ¬ known) ∧
  match status with
  | STABLE_NEW =>
      entry_list' = entry_list ++ [bulk_ce] ∧
      length entry_list' = S (length entry_list)
  | _ => entry_list' = entry_list
  end.
Proof.
  unfold classifyStability.
  pose proof (round4_near (get_decomp_and_e_above_hull pd bulk_ce))
    as (Hm & Hlo & Hhi).
  pose proof (stable_composition_exists_spec pd redcomp) as Hk.
  pose proof (Qle_bool_iff (round4 (get_decomp_and_e_above_hull pd bulk_ce)) 0)
    as Hle.
  destruct (Qle_bool _ 0) eqn:Hb;
    destruct (stable_composition_exists pd redcomp) eqn:Hs; simpl;
    (split_and!; try done; try (rewrite length_app; simpl; lia);
     intuition (try congruence; try discriminate)).
Qed.

End Stability.

(** ** The dilute merge *)

Ltac exn_simpl :=
  repeat (unfold mbind, exn_bind, mret, exn_ret, raise in *; simpl in *).

Section Merge.
Implicit Types (fin : gmap string (gmap Key Val)) (vec rec : gmap Key Val).

Lemma string_length_app a b :
  String.length (a +:+ b) = String.length a + String.length b.
Proof.
  induction a as [|c a IH]; [done|].
  change (String c a +:+ b) with (String c (a +:+ b)).
  cbn [String.length]. by rewrite IH.
Qed.

Lemma string_app_assoc a b c : (a +:+ b) +:+ c = a +:+ b +:+ c.
Proof.
  induction a as [|x a IH]; [done|].
  change ((String x a +:+ b) +:+ c) with (String x ((a +:+ b) +:+ c)).
  by rewrite IH.
Qed.

Lemma name_grows old subnom : old +:+ "-" +:+ subnom ≠ old.
Proof.
  intros Heq. apply (f_equal String.length) in Heq.
  rewrite !string_length_app in Heq. simpl in Heq. lia.
Qed.

(** A facet that fails the test leaves the table as it is. *)
Lemma merge_facet_rejected n sub_el fin kv :
  facet_accepted n sub_el kv.1 = false →
  merge_facet n sub_el fin kv = inr fin.
Proof.
  unfold facet_accepted, merge_facet.
  destruct (diff_bulk_sub_phases _ _) as [[blk blknom] subnom].
  by intros ->.
Qed.

(** What an accepted facet writes. *)
Lemma merge_facet_accepted n sub_el fin fin' key vec :
  facet_accepted n sub_el key = true →
  merge_facet n sub_el fin (key, vec) = inr fin' →
  let '(_, blknom, subnom) :=
    diff_bulk_sub_phases (PyStr.split_dash key) (Some sub_el) in
  ∃ rec1 nm,
    match fin !! blknom with
    | None => rec1 = vec
    | Some rec => ∃ mu, vec !! KElement sub_el = Some mu ∧
                        rec1 = <[KStr sub_el := mu]> rec
    end ∧
    match rec1 !! name_append with
    | None => nm = subnom
    | Some (VStr old) => nm = old +:+ "-" +:+ subnom
    | Some (VFloat _) => False
    end ∧
    fin' = <[blknom := <[name_append := VStr nm]> rec1]> fin.
Proof.
  unfold facet_accepted, merge_facet. simpl.
  destruct (diff_bulk_sub_phases _ _) as [[blk blknom] subnom].
  intros ->. unfold append_name.
  destruct (fin !! blknom) as [rec|] eqn:Hrec; exn_simpl.
  - destruct (vec !! KElement sub_el) as [mu|] eqn:Hmu; [|done].
    rewrite lookup_insert_eq.
    destruct (<[KStr sub_el:=mu]> rec !! name_append) as [[x|old]|] eqn:Hn;
      [done|..]; intros [= <-];
      exists (<[KStr sub_el:=mu]> rec); eexists;
      rewrite Hn, insert_insert_eq; eauto.
  - rewrite lookup_insert_eq.
    destruct (vec !! name_append) as [[x|old]|] eqn:Hn;
      [done|..]; intros [= <-];
      exists vec; eexists; rewrite Hn, insert_insert_eq; eauto.
Qed.

(** The step succeeds when the augmented vector has the chemical
    potential of [sub_el] and no 'name-append' that is not a string is
    in the way. *)
Lemma merge_facet_succeeds n sub_el fin key vec mu :
  vec !! KElement sub_el = Some mu →
  sub_el ≠ "name-append" →
  (∀ L rec x, fin !! L = Some rec → rec !! name_append ≠ Some (VFloat x)) →
  (∀ x, vec !! name_append ≠ Some (VFloat x)) →
  ∃ fin', merge_facet n sub_el fin (key, vec) = inr fin'.
Proof.
  intros Hmu Hne Hfin Hvec. unfold merge_facet. simpl.
  destruct (diff_bulk_sub_phases _ _) as [[blk blknom] subnom].
  destruct (length blk + 1 =? n)%nat; [|by eexists].
  unfold append_name.
  destruct (fin !! blknom) as [rec|] eqn:Hrec; exn_simpl.
  - rewrite Hmu, lookup_insert_eq, lookup_insert_ne
      by (unfold name_append; congruence).
    destruct (rec !! name_append) as [[x|old]|] eqn:Hn; [|by eexists..].
    by destruct (Hfin _ _ x Hrec).
  - rewrite lookup_insert_eq.
    destruct (vec !! name_append) as [[x|old]|] eqn:Hn; [|by eexists..].
    by destruct (Hvec x).
Qed.

(** One facet changes, in a record already in the table, nothing but
    the entries under [sub_el] and 'name-append'. *)
Lemma merge_facet_keeps n sub_el fin fin' kv L rec :
  merge_facet n sub_el fin kv = inr fin' →
  fin !! L = Some rec →
  ∃ rec', fin' !! L = Some rec' ∧
    ∀ k, k ≠ KStr sub_el → k ≠ name_append → rec' !! k = rec !! k.
Proof.
  intros Hm HL. destruct kv as [key vec].
  destruct (facet_accepted n sub_el key) eqn:Hacc.
  - pose proof (merge_facet_accepted _ _ _ _ _ _ Hacc Hm) as Hinv.
    destruct (diff_bulk_sub_phases _ _) as [[blk blknom] subnom].
    destruct Hinv as (rec1 & nm & H1 & _ & ->).
    destruct (decide (blknom = L)) as [->|Hne].
    + rewrite HL in H1. destruct H1 as (mu & _ & ->).
      rewrite lookup_insert_eq. eexists; split; [done|].
      intros k Hk1 Hk2. by rewrite !lookup_insert_ne.
    + rewrite lookup_insert_ne by done. eauto.
  - rewrite merge_facet_rejected in Hm by done. injection Hm as <-. eauto.
Qed.

Lemma merge_loop_keeps n sub_el items : ∀ fin fin' L rec,
  foldM (merge_facet n sub_el) fin items = inr fin' →
  fin !! L = Some rec →
  ∃ rec', fin' !! L = Some rec' ∧
    ∀ k, k ≠ KStr sub_el → k ≠ name_append → rec' !! k = rec !! k.
Proof.
  induction items as [|kv items IH]; intros fin fin' L rec; simpl.
  - intros [= <-] HL. eauto.
  - exn_simpl. destruct (merge_facet n sub_el fin kv) as [|fin1] eqn:H1; [done|].
    intros Hrest HL.
    destruct (merge_facet_keeps _ _ _ _ _ _ _ H1 HL) as (rec1 & HL1 & Hk1).
    destruct (IH _ _ _ _ Hrest HL1) as (rec' & HL' & Hk').
    exists rec'. split; [done|]. intros k ? ?. by rewrite Hk', Hk1.
Qed.

(** Rejected facets can be struck from the augmented table without
    changing the merge. *)
Lemma merge_loop_filter n sub_el (items : list (string * gmap Key Val)) : ∀ fin,
  foldM (merge_facet n sub_el) fin items =
  foldM (merge_facet n sub_el) fin
        (filter (λ kv, facet_accepted n sub_el kv.1) items).
Proof.
  induction items as [|kv items IH]; intros fin; [done|].
  rewrite filter_cons. simpl.
  destruct (facet_accepted n sub_el kv.1) eqn:Hacc; simpl.
  - exn_simpl. destruct (merge_facet n sub_el fin kv); [done|]. apply IH.
  - rewrite merge_facet_rejected by done. exn_simpl. apply IH.
Qed.

End Merge.

Section MergeClaims.
Implicit Types (fin : gmap string (gmap Key Val)) (vec rec : gmap Key Val).

(** A facet of the solve augmented with [sub_el] is merged exactly
    when the size of its bulk subset plus one is the number of bulk
    elements: then the record under its bulk label carries its
    substitutional label; otherwise the table is left as it is, and the
    merge of a whole augmented table is the merge of its accepted facets
    alone. *)
Lemma merge_facet_acceptance n sub_el fin key vec
    (items : list (string * gmap Key Val)) :
  let '(blk, blknom, subnom) :=
    diff_bulk_sub_phases (PyStr.split_dash key) (Some sub_el) in
  (facet_accepted n sub_el key = true ↔ length blk + 1 = n) ∧
  (length blk + 1 ≠ n → merge_facet n sub_el fin (key, vec) = inr fin) ∧
  (length blk + 1 = n →
   ∀ fin', merge_facet n sub_el fin (key, vec) = inr fin' →
     (∃ rec' old, fin' !! blknom = Some rec' ∧
                  rec' !! name_append = Some (VStr (old +:+ subnom))) ∧
     (sub_el ≠ "name-append" → fin' ≠ fin)) ∧
  foldM (merge_facet n sub_el) fin items =
    foldM (merge_facet n sub_el) fin
          (filter (λ kv, facet_accepted n sub_el kv.1) items).
Proof.
  pose proof (merge_facet_rejected n sub_el fin (key, vec)) as Hrej.
  pose proof (λ fin', merge_facet_accepted n sub_el fin fin' key vec) as Hacc.
  unfold facet_accepted in Hrej, Hacc |- *. simpl in Hrej.
  destruct (diff_bulk_sub_phases _ _) as [[blk blknom] subnom].
  split_and!.
  - apply Nat.eqb_eq.
  - intros Hne. apply Hrej. by apply Nat.eqb_neq.
  - intros Heq fin' Hm. apply Nat.eqb_eq in Heq.
    destruct (Hacc fin' Heq Hm) as (rec1 & nm & H1 & Hnm & ->).
    split.
    + exists (<[name_append := VStr nm]> rec1).
      destruct (rec1 !! name_append) as [[x|old]|]; [done|..]; subst nm.
      * exists (old +:+ "-"). rewrite string_app_assoc.
        by rewrite !lookup_insert_eq.
      * exists "". by rewrite !lookup_insert_eq.
    + intros Hs Heqfin.
      apply (f_equal (λ m : gmap string (gmap Key Val), m !! blknom)) in Heqfin.
      cbv beta in Heqfin. rewrite lookup_insert_eq in Heqfin.
      destruct (fin !! blknom) as [rec|]; [|done].
      destruct H1 as (mu & _ & ->). apply (inj Some) in Heqfin as Heqrec.
      apply (f_equal (λ m : gmap Key Val, m !! name_append)) in Heqrec.
      cbv beta in Heqrec. rewrite lookup_insert_eq in Heqrec.
      rewrite lookup_insert_ne in Hnm by (unfold name_append; congruence).
      rewrite <- Heqrec in Hnm.
      symmetry in Hnm. by apply name_grows in Hnm.
  - apply merge_loop_filter.
Qed.


End MergeClaims.

(** ** analyze_GGA_chempots *)

Section Analyze.
Context {pdlib : PhaseDiagramLib} {mp : MPRester}.

Lemma all_sub_entries_spec (subs : list (string * list Entry)) e :
  e ∈ all_sub_entries subs ↔ ∃ s l, (s, l) ∈ subs ∧ e ∈ l.
Proof.
  unfold all_sub_entries. rewrite list_elem_of_In, in_concat. split.
  - intros (l & Hl & He). apply list_elem_of_In in Hl, He.
    apply list_elem_of_fmap in Hl as ([s l'] & -> & Hin). eauto.
  - intros (s & l & Hin & He). exists l. rewrite <- !list_elem_of_In.
    split; [|done]. apply list_elem_of_fmap. by exists (s, l).
Qed.

Lemma classifyStability_list pd b rc entry_list :
  (classifyStability pd b rc entry_list).2 = entry_list ∨
  (classifyStability pd b rc entry_list).2 = entry_list ++ [b].
Proof.
  unfold classifyStability.
  destruct (Qle_bool _ 0); destruct (stable_composition_exists pd rc);
    simpl; auto.
Qed.

(** What the bulk-only part leaves behind. *)
Lemma bulk_only_solve_inv self full self' entry_list chem_lims :
  bulk_only_solve self full = inr (self', entry_list, chem_lims) →
  get_mp_entries self full = inr self' ∧
  ∃ b pd0 pd,
    bulk_ce self' = Some b ∧
    PhaseDiagram (bulk_derived (entries self')) = inr pd0 ∧
    (classifyStability pd0 b (redcomp self')
       (bulk_derived (entries self'))).2 = entry_list ∧
    PhaseDiagram entry_list = inr pd ∧
    get_chempots_from_pd (bulk_ce self') pd = inr chem_lims.
Proof.
  unfold bulk_only_solve. exn_simpl.
  destruct (get_mp_entries self full) as [|s1]; [done|].
  destruct (bulk_ce s1) as [b|] eqn:Hb; [|done].
  destruct (PhaseDiagram (bulk_derived (entries s1))) as [|pd0] eqn:Hpd0;
    [done|].
  destruct (classifyStability pd0 b (redcomp s1) (bulk_derived (entries s1)))
    as [[d st] el] eqn:Hc.
  destruct (PhaseDiagram el) as [|pd] eqn:Hpd1; [done|].
  destruct (get_chempots_from_pd (Some b) pd) as [|cl] eqn:Hcl; [done|].
  intros [= <- <- <-]. split; [done|].
  exists b, pd0, pd. rewrite Hb, Hc. by split_and!.
Qed.

(** The tail of the dilute path, given the bulk-only part. *)
Lemma analyze_dilute_tail self self' entry_list chem_lims :
  bulk_only_solve self false = inr (self', entry_list, chem_lims) →
  analyze_GGA_chempots self false =
    finchem_lims ← merged_table self' entry_list chem_lims;
    if overdependent_chempot finchem_lims
         (length (bulk_species_symbol self')) then
      let full_list :=
        entry_list ++ all_sub_entries (subs_set (entries self')) in
      pd ← PhaseDiagram full_list;
      chem_lims ← get_chempots_from_pd (bulk_ce self') pd;
      mret (dict_of_items chem_lims, set_bulk_derived full_list self')
    else mret (finchem_lims, set_bulk_derived entry_list self').
Proof.
  intros Hb.
  apply bulk_only_solve_inv in Hb
    as (Hg & b & pd0 & pd & Hbce & Hpd0 & Hc & Hpd1 & Hcl).
  unfold analyze_GGA_chempots, merged_table. rewrite Hg. exn_simpl.
  rewrite Hbce, Hpd0.
  destruct (classifyStability pd0 b (redcomp self')
              (bulk_derived (entries self'))) as [[d st] el].
  simpl in Hc. subst el. rewrite Hpd1. rewrite Hbce in Hcl. rewrite Hcl.
  done.
Qed.

(** C1, as the code has it. In the dilute path the check fires exactly
    when the number of keys of the merged table differs from the number
    of elements of the bulk entry. When it fires the merged table is
    dropped: the entries of every substitutional species are appended to
    the entry list of the bulk-only solve, one solve is run on that list
    and its table is returned; when it does not, the merged table is
    returned. *)
Theorem analyze_overdetermined self self' entry_list chem_lims finchem_lims :
  bulk_only_solve self false = inr (self', entry_list, chem_lims) →
  merged_table self' entry_list chem_lims = inr finchem_lims →
  let n := length (bulk_species_symbol self') in
  let full_list := entry_list ++ all_sub_entries (subs_set (entries self')) in
  (overdependent_chempot finchem_lims n = true ↔ size finchem_lims ≠ n) ∧
  (∃ b, bulk_ce self' = Some b ∧
        (entry_list = bulk_derived (entries self') ∨
         entry_list = bulk_derived (entries self') ++ [b])) ∧
  (∀ e, e ∈ full_list ↔
        e ∈ entry_list ∨ ∃ s l, (s, l) ∈ subs_set (entries self') ∧ e ∈ l) ∧
  analyze_GGA_chempots self false =
    if overdependent_chempot finchem_lims n then
      pd ← PhaseDiagram full_list;
      chem_lims ← get_chempots_from_pd (bulk_ce self') pd;
      mret (dict_of_items chem_lims, set_bulk_derived full_list self')
    else mret (finchem_lims, set_bulk_derived entry_list self').
Proof.
  intros Hb Hm n full_list. split_and!.
  - unfold overdependent_chempot. rewrite negb_true_iff. apply Nat.eqb_neq.
  - apply bulk_only_solve_inv in Hb
      as (_ & b & pd0 & _ & Hbce & _ & Hc & _).
    exists b. split; [done|]. rewrite <- Hc. apply classifyStability_list.
  - intros e. unfold full_list.
    by rewrite elem_of_app, all_sub_entries_spec.
  - rewrite (analyze_dilute_tail _ _ _ _ Hb), Hm. done.
Qed.

(** *** No substitutional species *)

Lemma rekey_bulk_items (chem_lims : list (string * gmap Key Val)) :
  rekey_bulk chem_lims =
    dict_of_items (prod_map canonical_label id <$> chem_lims).
Proof.
  unfold rekey_bulk, dict_of_items. rewrite foldl_fmap.
  generalize (∅ : gmap string (gmap Key Val)).
  induction chem_lims as [|[key vec] items IH]; intros m; [done|].
  simpl. rewrite <- IH. f_equal.
  by rewrite diff_bulk_sub_phases_unset.
Qed.

Lemma get_mp_entries_no_subs self self' :
  sub_species self = [] →
  get_mp_entries self false = inr self' →
  sub_species self' = [] ∧ subs_set (entries self') = [].
Proof.
  intros Hs. unfold get_mp_entries. exn_simpl.
  destruct (bulk_ce self) as [b|].
  - simpl. destruct (get_entries_in_chemsys _) as [|bd]; [done|].
    destruct (PyStr.truth (mpid self)) as [id|].
    + destruct (get_entry_by_material_id id) as [|b']; [done|].
      simpl. rewrite Hs. simpl. by intros [= <-].
    + simpl. rewrite Hs. simpl. by intros [= <-].
  - destruct (PyStr.truth (mpid self)) as [id|] eqn:Hid; [|done].
    destruct (get_entry_by_material_id id) as [|b']; [done|].
    simpl. destruct (get_entries_in_chemsys _) as [|bd]; [done|].
    rewrite Hid. simpl. rewrite Hs. simpl. by intros [= <-].
Qed.

(** C7, as the code has it. With no substitutional species the dilute
    path returns the bulk-only table filed under sorted labels when the
    number of these labels is the number of elements of the bulk entry,
    and the bulk-only table itself otherwise; the two are the same table
    when the labels of the bulk-only solve are sorted already. *)
Theorem analyze_no_sub_species self self' entry_list chem_lims :
  sub_species self = [] →
  bulk_only_solve self false = inr (self', entry_list, chem_lims) →
  let n := length (bulk_species_symbol self') in
  let relabelled :=
    dict_of_items (prod_map canonical_label id <$> chem_lims) in
  analyze_GGA_chempots self false =
    inr (if decide (size relabelled = n) then relabelled
         else dict_of_items chem_lims,
         set_bulk_derived entry_list self') ∧
  (Forall (λ kv, canonical_label kv.1 = kv.1) chem_lims →
   analyze_GGA_chempots self false =
     inr (dict_of_items chem_lims, set_bulk_derived entry_list self')).
Proof.
  intros Hs Hb n relabelled.
  assert (Hmain : analyze_GGA_chempots self false =
    inr (if decide (size relabelled = n) then relabelled
         else dict_of_items chem_lims,
         set_bulk_derived entry_list self')).
  { rewrite (analyze_dilute_tail _ _ _ _ Hb).
    pose proof Hb as Hb'.
    apply bulk_only_solve_inv in Hb'
      as (Hg & b & pd0 & pd & Hbce & Hpd0 & Hc & Hpd1 & Hcl).
    destruct (get_mp_entries_no_subs _ _ Hs Hg) as [Hs' Hsubs].
    unfold merged_table. rewrite Hs'. exn_simpl.
    rewrite rekey_bulk_items. fold relabelled.
    unfold overdependent_chempot. fold n.
    destruct (decide (size relabelled = n)) as [Heq|Hne].
    - apply Nat.eqb_eq in Heq. by rewrite Heq.
    - apply Nat.eqb_neq in Hne. rewrite Hne. simpl.
      rewrite Hsubs. unfold all_sub_entries. simpl. rewrite app_nil_r.
      by rewrite Hpd1, Hcl. }
  split; [done|].
  intros Hcanon. rewrite Hmain.
  assert (prod_map canonical_label id <$> chem_lims = chem_lims) as Hid.
  { clear -Hcanon. induction Hcanon as [|[k v] l Hk _ IH]; [done|].
    rewrite fmap_cons, IH. unfold prod_map. simpl in *. by rewrite Hk. }
  unfold relabelled. rewrite Hid.
  by destruct (decide (size (dict_of_items chem_lims) = n)).
Qed.

End Analyze.

(** ** The local pipeline *)

Section Local.
Context {pdlib : PhaseDiagramLib}.
Implicit Types (l : list Entry) (bulk_elements : list string).

Lemma bulk_associated_spec bulk_elements localentry :
  bulk_associated bulk_elements localentry = true ↔
  ∀ elt, elt ∈ elements (composition localentry) → elt ∈ bulk_elements.
Proof.
  unfold bulk_associated.
  assert (∀ (elts : list string) ba,
    foldl (λ ba elt, if decide (elt ∈ bulk_elements) then ba else false)
          ba elts = true ↔
    ba = true ∧ ∀ elt, elt ∈ elts → elt ∈ bulk_elements) as Hgen.
  { induction elts as [|x elts IH]; intros ba; simpl.
    - split; [|tauto]. intros ->. split; [done|].
      intros elt Hin. by apply elem_of_nil in Hin.
    - rewrite IH. split.
      + intros [Hba Hrest]. destruct (decide (x ∈ bulk_elements)) as [Hx|Hx];
          [|done].
        split; [done|]. intros elt [->|Hin]%elem_of_cons; auto.
      + intros [-> Hall]. rewrite decide_True by (apply Hall; left).
        split; [done|]. intros elt Hin. apply Hall. by right. }
  rewrite Hgen. tauto.
Qed.

(** The loop of lines 505 to 514 returns the list it was given, with
    nothing collected, when every entry is bulk associated, and raises
    at the first entry that is not. *)
Lemma separate_loop bulk_elements l : ∀ entry_list,
  foldM (separate_step bulk_elements) (entry_list, []) l =
    if forallb (bulk_associated bulk_elements) l
    then inr (entry_list ++ l, [])
    else inl TypeError.
Proof.
  induction l as [|e l IH]; intros entry_list; simpl.
  - by rewrite app_nil_r.
  - exn_simpl. destruct (bulk_associated bulk_elements e); simpl; [|done].
    rewrite IH. by rewrite <- app_assoc.
Qed.

Lemma separate_entries_eq bulk_elements l :
  separate_entries bulk_elements l =
    if forallb (bulk_associated bulk_elements) l then inr (l, [])
    else inl TypeError.
Proof. unfold separate_entries. by rewrite separate_loop. Qed.

Lemma count_loop_raises l : ∀ (eltcount : gmap string nat) ex,
  foldM count_step eltcount l = inl ex → ex = KeyError.
Proof.
  induction l as [|p l IH]; intros eltcount ex; simpl; [done|].
  exn_simpl. unfold count_step at 1.
  destruct (is_element p); simpl.
  - destruct (elements (composition p)) as [|elt elts]; simpl.
    + by intros [= <-].
    + destruct (eltcount !! elt); simpl; [apply IH | by intros [= <-]].
  - apply IH.
Qed.

Lemma fake_loop (items : list (string * nat)) : ∀ l,
  foldl (λ l kv, if (kv.2 =? 0)%nat then l ++ [fake_entry kv.1] else l)
        l items =
  l ++ (fake_entry <$> (filter (λ kv, kv.2 = 0%nat) items).*1).
Proof.
  induction items as [|[elt c] items IH]; intros l; simpl.
  - by rewrite app_nil_r.
  - rewrite IH, filter_cons. simpl.
    destruct (Nat.eqb_spec c 0) as [->|Hc].
    + rewrite decide_True by done. by rewrite <- app_assoc.
    + by rewrite decide_False by done.
Qed.

(** Lines 478 to 492 raise [KeyError] or return the list read, the bulk
    entry and some fake entries, in this order. *)
Lemma add_fake_elements_shape b l :
  add_fake_elements b l = inl KeyError ∨
  ∃ fakes, add_fake_elements b l = inr (l ++ [b] ++ fakes).
Proof.
  unfold add_fake_elements. exn_simpl.
  destruct (foldM count_step _ (l ++ [b])) as [ex|eltcount] eqn:Hc.
  - left. by rewrite (count_loop_raises _ _ _ Hc).
  - right. rewrite fake_loop. rewrite <- app_assoc. eauto.
Qed.

(** C8. In the dilute branch of the local pipeline an entry with an
    element outside the bulk composition makes the separating loop raise
    [TypeError], the call of a list; whenever the loop returns, the list
    of substitution entries is empty. The pipeline as a whole then ends
    in an exception and returns no table. *)
Theorem separate_entries_never_collects
    self (personal_entry_list : list Entry) bulk_vasprun b e elt :
  match user_bulk_ce self with
  | Some b' => Some b'
  | None => bulk_vasprun
  end = Some b →
  e ∈ personal_entry_list →
  elt ∈ elements (composition e) →
  elt ∉ elements (composition b) →
  separate_entries (elements (composition b)) personal_entry_list
    = inl TypeError ∧
  (∀ l entry_list sub_associated_entry_list,
     separate_entries (elements (composition b)) l
       = inr (entry_list, sub_associated_entry_list) →
     sub_associated_entry_list = [] ∧ entry_list = l) ∧
  ∃ ex, read_phase_diagram_and_chempots self (Some personal_entry_list)
          bulk_vasprun false = inl ex ∧
        (ex = TypeError ∨ ex = KeyError).
Proof.
  intros Hbulk He Helt Hout.
  assert (Hraise : ∀ l, e ∈ l →
    separate_entries (elements (composition b)) l = inl TypeError).
  { intros l Hin. rewrite separate_entries_eq.
    destruct (forallb _ l) eqn:Hf; [|done].
    apply Is_true_true, forallb_True in Hf.
    rewrite Forall_forall in Hf. specialize (Hf e Hin).
    apply Is_true_true in Hf.
    destruct Hout. by apply (proj1 (bulk_associated_spec _ _) Hf). }
  split_and!.
  - by apply Hraise.
  - intros l entry_list sub_l. rewrite separate_entries_eq.
    destruct (forallb _ l); [|done]. by intros [= <- <-].
  - unfold read_phase_diagram_and_chempots. rewrite Hbulk.
    destruct (add_fake_elements_shape b personal_entry_list)
      as [Hk|[fakes Hk]]; rewrite Hk; exn_simpl.
    + exists KeyError. auto.
    + exists TypeError. split; [|auto].
      rewrite Hraise; [done|]. rewrite !elem_of_app. auto.
Qed.

End Local.

(** ** Fake elemental entries *)

Section FakeElements.
Implicit Types (l : list Entry) (eltcount : gmap string nat).

Lemma is_element_inv p :
  is_element p = true →
  ∃ k v, composition p = {[k := v]} ∧ elements (composition p) = [k].
Proof.
  unfold is_element, comp_is_element, elements. intros Hs.
  apply Nat.eqb_eq in Hs. rewrite <- length_map_to_list in Hs.
  destruct (map_to_list (composition p)) as [|[k v] [|kv rest]] eqn:Hl;
    try done.
  exists k, v. split; [|done].
  rewrite <- (list_to_map_to_list (composition p)), Hl. simpl.
  apply insert_empty.
Qed.

(** The counting loop succeeds when every pure-element entry is of an
    element of the bulk; the count of an element stays zero exactly when
    no pure-element entry is of that element. *)
Lemma count_loop_ok (bulk : gmap string N) l : ∀ eltcount,
  (∀ elt, is_Some (eltcount !! elt) ↔ is_Some (bulk !! elt)) →
  (∀ p elt, p ∈ l → is_element p = true →
            is_Some (composition p !! elt) → is_Some (bulk !! elt)) →
  ∃ eltcount', foldM count_step eltcount l = inr eltcount' ∧
    (∀ elt, is_Some (eltcount' !! elt) ↔ is_Some (bulk !! elt)) ∧
    (∀ elt, eltcount' !! elt = Some 0%nat ↔
            eltcount !! elt = Some 0%nat ∧
            ∀ p, p ∈ l → is_element p = true →
                 composition p !! elt = None).
Proof.
  induction l as [|p l IH]; intros eltcount Hdom Hpure.
  - exists eltcount. split_and!; [done..|].
    intros elt. split; [|tauto]. intros Hz. split; [done|].
    intros p Hin. by apply elem_of_nil in Hin.
  - simpl. exn_simpl. unfold count_step at 1.
    destruct (is_element p) eqn:Hel; simpl.
    + destruct (is_element_inv p Hel) as (k & v & Hc & Helts).
      rewrite Helts.
      assert (is_Some (eltcount !! k)) as [c Hk].
      { apply Hdom, (Hpure p k); [left|done|].
        rewrite Hc, lookup_singleton_eq. eauto. }
      rewrite Hk. simpl.
      destruct (IH (<[k := S c]> eltcount)) as (ec' & Hrun & Hdom' & Hz).
      { intros elt. rewrite lookup_insert_is_Some, <- Hdom.
        split; [intros [<-|[_ ?]]; eauto | intros ?; destruct (decide (k = elt)); auto]. }
      { intros q elt Hq. apply Hpure. by right. }
      exists ec'. split_and!; [done..|].
      intros elt. rewrite Hz. split.
      * intros [Hz1 Hrest].
        destruct (decide (k = elt)) as [->|Hne].
        { by rewrite lookup_insert_eq in Hz1. }
        rewrite lookup_insert_ne in Hz1 by done. split; [done|].
        intros q [->|Hq]%elem_of_cons Hq'; [|by apply Hrest].
        rewrite Hc. by apply lookup_singleton_ne.
      * intros [Hz1 Hall].
        assert (k ≠ elt) as Hne.
        { intros ->. specialize (Hall p ltac:(left) Hel).
          by rewrite Hc, lookup_singleton_eq in Hall. }
        rewrite lookup_insert_ne by done. split; [done|].
        intros q Hq. apply Hall. by right.
    + destruct (IH eltcount Hdom) as (ec' & Hrun & Hdom' & Hz).
      { intros q elt Hq. apply Hpure. by right. }
      exists ec'. split_and!; [done..|].
      intros elt. rewrite Hz. split.
      * intros [Hz1 Hrest]. split; [done|].
        intros q [->|Hq]%elem_of_cons Hq'; [congruence|by apply Hrest].
      * intros [Hz1 Hall]. split; [done|].
        intros q Hq. apply Hall. by right.
Qed.

(** When every pure-element entry read, the bulk entry included, is of
    an element of the bulk, lines 478 to 492 append one fake entry of
    energy zero for each element of the bulk without a pure-element
    entry, and nothing else. *)
Lemma add_fake_elements_ok b l :
  (∀ p elt, p ∈ l ++ [b] → is_element p = true →
            is_Some (composition p !! elt) →
            is_Some (composition b !! elt)) →
  ∃ fakes, add_fake_elements b l = inr (l ++ [b] ++ fakes) ∧
    ∀ f, f ∈ fakes ↔
      ∃ elt, f = fake_entry elt ∧ is_Some (composition b !! elt) ∧
             ∀ p, p ∈ l ++ [b] → is_element p = true →
                  composition p !! elt = None.
Proof.
  intros Hpure. unfold add_fake_elements.
  destruct (count_loop_ok (composition b) (l ++ [b])
              ((λ _, 0%nat) <$> composition b))
    as (ec' & Hrun & Hdom & Hz); [|done|].
  { intros elt. rewrite lookup_fmap. by rewrite fmap_is_Some. }
  rewrite Hrun. exn_simpl. rewrite fake_loop, <- app_assoc.
  eexists. split; [done|].
  intros f. rewrite list_elem_of_fmap. split.
  - intros (elt & -> & Hin).
    apply list_elem_of_fmap in Hin as ([elt' c] & -> & Hin).
    apply list_elem_of_filter in Hin as [Hc Hin]. simpl in *. subst c.
    apply elem_of_map_to_list in Hin.
    apply Hz in Hin as [Hz0 Hnone].
    exists elt'. split_and!; [done| |done].
    rewrite lookup_fmap in Hz0. by rewrite <- (fmap_is_Some (λ _, 0%nat)), Hz0.
  - intros (elt & -> & [n Hn] & Hnone).
    exists elt. split; [done|].
    apply list_elem_of_fmap. exists (elt, 0%nat). split; [done|].
    apply list_elem_of_filter. split; [done|].
    apply elem_of_map_to_list, Hz. split; [|done].
    by rewrite lookup_fmap, Hn.
Qed.

Lemma fake_entry_is_zero elt :
  energy (fake_entry elt) = 0%Q ∧ composition (fake_entry elt) = {[elt := 1%N]} ∧
  is_element (fake_entry elt) = true.
Proof.
  split_and!; [done..|].
  unfold is_element, comp_is_element. simpl.
  by rewrite map_size_singleton.
Qed.

End FakeElements.

(** ** The properties on the small system *)

Section OnExample.
Import Example.

Lemma unstable_bulk_only :
  bulk_only_solve (pdlib:=unstable_lib) (mp:=mp_without_GaN) analyzer false
    = inr (after_mp [Ga; N2], [Ga; N2], unstable_table).
Proof. exact eq_refl. Qed.

Lemma unstable_merged :
  merged_table (pdlib:=unstable_lib) (after_mp [Ga; N2]) [Ga; N2]
    unstable_table = inr unstable_dict.
Proof. exact eq_refl. Qed.

Lemma stable_bulk_only :
  bulk_only_solve (pdlib:=stable_lib) (mp:=mp_with_GaN) analyzer false
    = inr (after_mp [Ga; N2; GaN], [Ga; N2; GaN], stable_table).
Proof. exact eq_refl. Qed.

(** C1, as stated, fails: for GaN above the hull of Ga and N2 the
    bulk-only table has one facet and, with nothing to merge, so has the
    merged table; the two counts agree, yet the check fires, because the
    bulk has two elements, and the solve is run again. *)
Lemma overdetermined_counterexample :
  bulk_only_solve (pdlib:=unstable_lib) (mp:=mp_without_GaN) analyzer false
    = inr (after_mp [Ga; N2], [Ga; N2], unstable_table) ∧
  merged_table (pdlib:=unstable_lib) (after_mp [Ga; N2]) [Ga; N2]
    unstable_table = inr unstable_dict ∧
  ¬ (overdependent_chempot unstable_dict
       (length (bulk_species_symbol (after_mp [Ga; N2]))) = true ↔
     size unstable_dict ≠ size (dict_of_items unstable_table)).
Proof.
  split_and!.
  - exact unstable_bulk_only.
  - exact unstable_merged.
  - intros [Hfire _]. by destruct (Hfire eq_refl).
Qed.

Lemma analyze_overdetermined_witness :
  bulk_only_solve (pdlib:=unstable_lib) (mp:=mp_without_GaN) analyzer false
    = inr (after_mp [Ga; N2], [Ga; N2], unstable_table) ∧
  merged_table (pdlib:=unstable_lib) (after_mp [Ga; N2]) [Ga; N2]
    unstable_table = inr unstable_dict ∧
  analyze_GGA_chempots (pdlib:=unstable_lib) (mp:=mp_without_GaN)
    analyzer false
    = inr (dict_of_items unstable_table, after_mp [Ga; N2]).
Proof.
  split_and!.
  - exact unstable_bulk_only.
  - exact unstable_merged.
  - rewrite (proj2 (proj2 (proj2
      (analyze_overdetermined (pdlib:=unstable_lib) (mp:=mp_without_GaN)
         analyzer (after_mp [Ga; N2]) [Ga; N2] unstable_table
         unstable_dict
         unstable_bulk_only unstable_merged)))).
    exact eq_refl.
Defined.

(** C7, as stated, fails: with no substitutional species and GaN on the
    hull, the solve names its facets GaN-Ga and N2-GaN while the table
    returned has the keys Ga-GaN and GaN-N2. *)
Lemma identity_counterexample :
  sub_species analyzer = [] ∧
  bulk_only_solve (pdlib:=stable_lib) (mp:=mp_with_GaN) analyzer false
    = inr (after_mp [Ga; N2; GaN], [Ga; N2; GaN], stable_table) ∧
  analyze_GGA_chempots (pdlib:=stable_lib) (mp:=mp_with_GaN) analyzer false
    = inr (stable_sorted, after_mp [Ga; N2; GaN]) ∧
  stable_sorted ≠ dict_of_items stable_table.
Proof.
  split_and!.
  - reflexivity.
  - exact stable_bulk_only.
  - exact eq_refl.
  - intros Heq.
    assert (Hnone : stable_sorted !! "GaN-Ga" = None) by exact eq_refl.
    assert (Hsome : is_Some (dict_of_items stable_table !! "GaN-Ga"))
      by (eexists; exact eq_refl).
    rewrite <- Heq, Hnone in Hsome. by destruct Hsome.
Qed.

Lemma analyze_no_sub_species_witness :
  sub_species analyzer = [] ∧
  bulk_only_solve (pdlib:=stable_lib) (mp:=mp_with_GaN) analyzer false
    = inr (after_mp [Ga; N2; GaN], [Ga; N2; GaN], stable_table) ∧
  analyze_GGA_chempots (pdlib:=stable_lib) (mp:=mp_with_GaN) analyzer false
    = inr (stable_sorted, after_mp [Ga; N2; GaN]).
Proof.
  split_and!.
  - reflexivity.
  - exact stable_bulk_only.
  - rewrite (proj1
      (analyze_no_sub_species (pdlib:=stable_lib) (mp:=mp_with_GaN)
         analyzer (after_mp [Ga; N2; GaN]) [Ga; N2; GaN] stable_table
         eq_refl stable_bulk_only)).
    exact eq_refl.
Defined.



Lemma separate_entries_never_collects_witness :
  Mn ∈ [Ga; N2; Mn] ∧
  "Mn" ∈ elements (composition Mn) ∧
  ("Mn" ∉ elements (composition GaN)) ∧
  separate_entries (elements (composition GaN)) [Ga; N2; Mn]
    = inl TypeError.
Proof.
  assert (H1 : Mn ∈ [Ga; N2; Mn]) by (do 2 right; left).
  assert (H2 : "Mn" ∈ elements (composition Mn)) by (change ("Mn" ∈ ["Mn"]); left).
  assert (H3 : "Mn" ∉ elements (composition GaN)).
  { apply (bool_decide_unpack _). vm_compute. exact I. }
  split_and!; [done..|].
  exact (proj1 (separate_entries_never_collects (pdlib:=stable_lib)
                  user [Ga; N2; Mn] None GaN Mn "Mn" eq_refl H1 H2 H3)).
Defined.

(** With Mn as substitutional species the two facets with one phase
    containing Mn are rejected and the facet with two is filed under the
    new label GaN: the merged table has three keys for a bulk of two
    elements, the check fires and the table of the joint solve is
    returned. *)
Example doped_escalates :
  bulk_only_solve (pdlib:=doped_lib) (mp:=mp_doped) analyzer_Mn false
    = inr (after_mp_Mn [Ga; N2; GaN], [Ga; N2; GaN], stable_table) ∧
  merged_table (pdlib:=doped_lib) (after_mp_Mn [Ga; N2; GaN]) [Ga; N2; GaN]
    stable_table = inr doped_merged ∧
  size doped_merged = 3 ∧
  analyze_GGA_chempots (pdlib:=doped_lib) (mp:=mp_doped) analyzer_Mn false
    = inr (dict_of_items doped_table,
           after_mp_Mn [Ga; N2; GaN; Mn; MnN]).
Proof. split_and!; exact eq_refl. Qed.

(** The two cases of the stability branch named in the specification:
    energy 0 with a stable entry of the bulk's composition, and energy
    -0.01 with none. *)
Example classify_stable_known :
  classifyStability (mkPD [Ga; N2; GaN] [Ga; GaN; N2] (λ _, 0%Q) (λ _, inr []))
    GaN (reduced_composition (composition GaN)) [Ga; N2; GaN]
  = ((0 # 10000)%Q, STABLE_KNOWN, [Ga; N2; GaN]).
Proof. exact eq_refl. Qed.

Example classify_stable_new :
  classifyStability (mkPD [Ga; N2] [Ga; N2] (λ _, (- (1 # 100))%Q) (λ _, inr []))
    GaN (reduced_composition (composition GaN)) [Ga; N2]
  = ((- (100 # 10000))%Q, STABLE_NEW, [Ga; N2; GaN]).
Proof. exact eq_refl. Qed.

(** The test of the partitioner is on the text of the label: with target S
    the phases Si and SiO2 are filed as substitutional. *)
Example partition_by_text :
  diff_bulk_sub_phases ["Si"; "SiO2"; "O2"] (Some "S")
  = (["O2"], "O2", "Si-SiO2").
Proof. exact eq_refl. Qed.

(** C10. The fake entries are not appended when a pure-element entry read
    from the folder is of an element outside the bulk: with GaN as bulk and
    entries of Ga and Mn, counting the Mn entry raises [KeyError], no fake
    entry for N is appended although N has no pure-element entry, and
    neither branch of the pipeline reaches its solve. Without the Mn entry
    the fake entry for N is appended. *)
Theorem fake_elements_key_error :
  add_fake_elements GaN [Ga; Mn] = inl KeyError ∧
  read_phase_diagram_and_chempots (pdlib:=stable_lib) user
    (Some [Ga; Mn]) None true = inl KeyError ∧
  read_phase_diagram_and_chempots (pdlib:=stable_lib) user
    (Some [Ga; Mn]) None false = inl KeyError ∧
  add_fake_elements GaN [Ga] = inr [Ga; GaN; fake_entry "N"].
Proof. split_and!; exact eq_refl. Qed.

End OnExample.

(** * Further properties *)

(** ** Facet names and labels *)

Section Labels.
Implicit Types (s key : string) (l : list string).

Lemma split_dash_nonempty s : PyStr.split_dash s ≠ [].
Proof.
  destruct s as [|c s]; simpl; [done|].
  destruct (Ascii.eqb c "-"); [done|]. by destruct (PyStr.split_dash s).
Qed.

Lemma split_dash_dash_free s : Forall (λ w, dash_free w = true) (PyStr.split_dash s).
Proof.
  induction s as [|c s IH]; simpl.
  - by repeat constructor.
  - destruct (Ascii.eqb c "-") eqn:Hc.
    + by constructor.
    + destruct (PyStr.split_dash s) as [|w ws].
      { constructor; [|done]. simpl. by rewrite Hc. }
      inversion IH as [|? ? Hw Hws]; subst. constructor; [|done].
      simpl. by rewrite Hc, Hw.
Qed.

Lemma join_cons_char c w ws :
  PyStr.join "-" (String c w :: ws) = String c (PyStr.join "-" (w :: ws)).
Proof. unfold PyStr.join. simpl. by destruct ws. Qed.

Lemma join_cons_cons x y l :
  PyStr.join "-" (x :: y :: l) = x +:+ String "-" (PyStr.join "-" (y :: l)).
Proof. reflexivity. Qed.

(** [split] then [join] gives the name back. *)
Lemma join_split s : PyStr.join "-" (PyStr.split_dash s) = s.
Proof.
  induction s as [|c s IH]; [done|]. simpl.
  destruct (Ascii.eqb_spec c "-") as [->|Hc].
  - pose proof (split_dash_nonempty s) as Hne.
    destruct (PyStr.split_dash s) as [|w ws] eqn:Hs; [done|].
    rewrite join_cons_cons, IH. done.
  - pose proof (split_dash_nonempty s) as Hne.
    destruct (PyStr.split_dash s) as [|w ws] eqn:Hs; [done|].
    by rewrite join_cons_char, IH.
Qed.

Lemma split_dash_free_one x : dash_free x = true → PyStr.split_dash x = [x].
Proof.
  induction x as [|c x IH]; [done|]. simpl.
  intros [Hc Hx]%andb_true_iff. apply negb_true_iff in Hc.
  by rewrite Hc, (IH Hx).
Qed.

Lemma split_app_dash x rest :
  dash_free x = true →
  PyStr.split_dash (x +:+ String "-" rest) = x :: PyStr.split_dash rest.
Proof.
  induction x as [|c x IH]; [done|].
  intros [Hc Hx]%andb_true_iff. apply negb_true_iff in Hc.
  change (String c x +:+ String "-" rest) with (String c (x +:+ String "-" rest)).
  cbn [PyStr.split_dash]. by rewrite Hc, (IH Hx).
Qed.

(** [join] then [split] gives the pieces back, when there is at least one
    piece and no piece has a dash. *)
Lemma split_join l :
  l ≠ [] → Forall (λ w, dash_free w = true) l →
  PyStr.split_dash (PyStr.join "-" l) = l.
Proof.
  induction l as [|x l IH]; [done|]. intros _ Hall.
  inversion Hall as [|? ? Hx Hl]; subst.
  destruct l as [|y l].
  - by apply split_dash_free_one.
  - rewrite join_cons_cons, split_app_dash by done. by rewrite IH.
Qed.

Lemma sort_sorted_id l : Sorted String.le l → PyStr.sort l = l.
Proof.
  intros Hs. apply (Sorted_unique String.le); [apply PyStrFacts.sort_sorted|done|].
  apply PyStrFacts.sort_perm.
Qed.

Lemma sort_nonempty l : l ≠ [] → PyStr.sort l ≠ [].
Proof.
  intros Hne Hnil. apply Hne, Permutation_nil_r.
  by rewrite <- Hnil, PyStrFacts.sort_perm.
Qed.

Lemma split_canonical key :
  PyStr.split_dash (canonical_label key) = PyStr.sort (PyStr.split_dash key).
Proof.
  unfold canonical_label. apply split_join.
  - apply sort_nonempty, split_dash_nonempty.
  - rewrite PyStrFacts.sort_perm. apply split_dash_dash_free.
Qed.

Lemma canonical_label_idem key :
  canonical_label (canonical_label key) = canonical_label key.
Proof.
  unfold canonical_label at 1. rewrite split_canonical.
  by rewrite sort_sorted_id by apply PyStrFacts.sort_sorted.
Qed.

(** X1. Relabelling is idempotent, and a facet name is its own label
    exactly when its phases are in sorted order. *)
Theorem canonical_label_fixpoint key :
  canonical_label (canonical_label key) = canonical_label key ∧
  (canonical_label key = key ↔ Sorted String.le (PyStr.split_dash key)).
Proof.
  split.
  - apply canonical_label_idem.
  - split.
    + intros Heq. rewrite <- Heq at 1. rewrite split_canonical.
      apply PyStrFacts.sort_sorted.
    + intros Hs. unfold canonical_label. rewrite sort_sorted_id by done.
      apply join_split.
Qed.

End Labels.

(** ** The relabelled bulk-only table *)

Section Relabel.
Implicit Types (items cl : list (string * gmap Key Val)).

Lemma dict_of_items_snoc items k (v : gmap Key Val) :
  dict_of_items (items ++ [(k, v)]) = <[k := v]> (dict_of_items items).
Proof. unfold dict_of_items. by rewrite foldl_snoc. Qed.

Lemma dict_of_items_lookup items k v :
  dict_of_items items !! k = Some v → (k, v) ∈ items.
Proof.
  induction items as [|[k' v'] items IH] using rev_ind; [done|].
  rewrite dict_of_items_snoc, elem_of_app, list_elem_of_singleton.
  destruct (decide (k' = k)) as [->|Hne].
  - rewrite lookup_insert_eq. intros [= ->]. by right.
  - rewrite lookup_insert_ne by done. auto.
Qed.

Lemma dict_of_items_is_Some items k :
  is_Some (dict_of_items items !! k) ↔ ∃ kv, kv ∈ items ∧ kv.1 = k.
Proof.
  induction items as [|[k' v'] items IH] using rev_ind.
  - split; [by intros [? ?]|]. intros (kv & Hin & _). by apply elem_of_nil in Hin.
  - rewrite dict_of_items_snoc, lookup_insert_is_Some, IH. split.
    + intros [<-|[_ (kv & Hin & Hk)]].
      * exists (k', v'). rewrite elem_of_app, list_elem_of_singleton. auto.
      * exists kv. rewrite elem_of_app. auto.
    + intros (kv & [Hin|Hin%list_elem_of_singleton]%elem_of_app & Hk).
      * destruct (decide (k' = k)); [by left|]. right. eauto.
      * subst kv. by left.
Qed.

Lemma dict_of_items_size items : size (dict_of_items items) ≤ length items.
Proof.
  induction items as [|[k v] items IH] using rev_ind; [done|].
  rewrite dict_of_items_snoc, length_app. simpl.
  destruct (dict_of_items items !! k) eqn:Hk.
  - rewrite map_size_insert_Some by done. lia.
  - rewrite map_size_insert_None by done. lia.
Qed.

(** X2. The table of the first loop has the labels of the facets of the
    bulk-only solve as its keys and nothing else; each key is its own
    label, each vector is the vector of a facet with that label, and two
    facets with one label leave one entry. *)
Theorem rekey_bulk_keys cl :
  (∀ L, is_Some (rekey_bulk cl !! L) ↔
        ∃ kv, kv ∈ cl ∧ canonical_label kv.1 = L) ∧
  (∀ L v, rekey_bulk cl !! L = Some v →
          canonical_label L = L ∧
          ∃ key, (key, v) ∈ cl ∧ canonical_label key = L) ∧
  size (rekey_bulk cl) ≤ length cl.
Proof.
  rewrite rekey_bulk_items.
  assert (Hmem : ∀ L v,
    (L, v) ∈ prod_map canonical_label id <$> cl ↔
    ∃ key, (key, v) ∈ cl ∧ canonical_label key = L).
  { intros L v. rewrite list_elem_of_fmap. split.
    - intros ([key v'] & [= -> ->] & Hin). eauto.
    - intros (key & Hin & <-). by exists (key, v). }
  split_and!.
  - intros L. rewrite dict_of_items_is_Some. split.
    + intros ([L' v] & Hin & HL). simpl in HL. subst L'.
      apply Hmem in Hin as (key & Hin & Hk). by exists (key, v).
    + intros ([key v] & Hin & Hk). exists (L, v). split; [|done].
      apply Hmem. eauto.
  - intros L v Hl. apply dict_of_items_lookup, Hmem in Hl as (key & Hin & <-).
    split; [apply canonical_label_idem|eauto].
  - etrans; [apply dict_of_items_size|]. by rewrite length_fmap.
Qed.

End Relabel.

(** ** Labels and acceptance of the facets of an augmented solve *)

Section FacetLabels.
Implicit Types (key : string) (sub_el : option string).

Lemma sort_dash_free (l : list string) :
  Forall (λ w, dash_free w = true) l →
  Forall (λ w, dash_free w = true) (PyStr.sort l).
Proof. intros Hl. by rewrite PyStrFacts.sort_perm. Qed.

Lemma filter_dash_free (P : string → Prop) `{∀ x, Decision (P x)}
    (l : list string) :
  Forall (λ w, dash_free w = true) l →
  Forall (λ w, dash_free w = true) (filter P l).
Proof.
  rewrite !Forall_forall. intros Hl w Hw.
  apply list_elem_of_filter in Hw as [_ Hw]. by apply Hl.
Qed.

Lemma split_join_or_empty (l : list string) :
  Forall (λ w, dash_free w = true) l →
  PyStr.split_dash (PyStr.join "-" l) = match l with [] => [""] | _ => l end.
Proof.
  intros Hl. destruct l as [|x l]; [done|]. by apply split_join.
Qed.

(** X3. The two labels of a facet can be read back: split at the dashes
    they give the sorted bulk phases and the sorted phases containing the
    target, a subset without phases giving the empty label. *)
Theorem labels_determine_phases key sub_el :
  let '(blk, sub_spcs) :=
    diff_bulk_sub_lists (PyStr.split_dash key) sub_el in
  let '(_, blknom, subnom) :=
    diff_bulk_sub_phases (PyStr.split_dash key) sub_el in
  PyStr.split_dash blknom = match blk with [] => [""] | _ => blk end ∧
  PyStr.split_dash subnom =
    match sub_spcs with [] => [""] | _ => sub_spcs end ∧
  (blk = [] → blknom = "") ∧ (sub_spcs = [] → subnom = "").
Proof.
  unfold diff_bulk_sub_phases. rewrite diff_bulk_sub_lists_eq.
  pose proof (split_dash_dash_free key) as Hfree.
  split_and!.
  - apply split_join_or_empty, sort_dash_free, filter_dash_free, Hfree.
  - apply split_join_or_empty, sort_dash_free, filter_dash_free, Hfree.
  - by intros ->.
  - by intros ->.
Qed.

(** X4. The test of line 228 counts phases: a facet is accepted exactly
    when the number of its phases containing [sub_el], plus the number of
    bulk elements, is the number of its phases plus one. *)
Theorem facet_accepted_count n (s : string) key :
  facet_accepted n s key = true ↔
  sub_phase_count s key + n = length (PyStr.split_dash key) + 1.
Proof.
  unfold facet_accepted, sub_phase_count, diff_bulk_sub_phases.
  rewrite diff_bulk_sub_lists_eq, Nat.eqb_eq.
  pose proof (filter_split (λ f, in_sub (Some s) f) (PyStr.split_dash key))
    as Hp.
  apply Permutation_length in Hp. rewrite length_app in Hp.
  pose proof (Permutation_length
    (PyStrFacts.sort_perm
       (filter (λ f, ¬ in_sub (Some s) f) (PyStr.split_dash key)))) as Hb.
  lia.
Qed.

End FacetLabels.

(** ** The merge over all substitutional species *)

Section MergeAll.
Context {pdlib : PhaseDiagramLib}.
Implicit Types (fin : gmap string (gmap Key Val)) (vec rec : gmap Key Val).

Lemma merge_sub_el_keeps bce n el subs fin fin' sub_el L rec :
  merge_sub_el bce n el subs fin sub_el = inr fin' →
  fin !! L = Some rec →
  ∃ rec', fin' !! L = Some rec' ∧
          ∀ e, rec' !! KElement e = rec !! KElement e.
Proof.
  unfold merge_sub_el. destruct (alist_get sub_el subs); [|done]. exn_simpl.
  destruct (PhaseDiagram _); [done|].
  destruct (get_chempots_from_pd bce _) as [|cl]; [done|].
  intros Hloop HL.
  destruct (merge_loop_keeps _ _ _ _ _ _ _ Hloop HL) as (rec' & HL' & Hk).
  exists rec'. split; [done|]. intros e. by apply Hk.
Qed.

Lemma merge_all_keeps bce n el subs (species : list string) : ∀ fin fin' L rec,
  foldM (merge_sub_el bce n el subs) fin species = inr fin' →
  fin !! L = Some rec →
  ∃ rec', fin' !! L = Some rec' ∧
          ∀ e, rec' !! KElement e = rec !! KElement e.
Proof.
  induction species as [|s species IH]; intros fin fin' L rec; simpl.
  - intros [= <-] HL. eauto.
  - exn_simpl.
    destruct (merge_sub_el bce n el subs fin s) as [|fin1] eqn:H1; [done|].
    intros Hrest HL.
    destruct (merge_sub_el_keeps _ _ _ _ _ _ _ _ _ H1 HL) as (rec1 & HL1 & Hk1).
    destruct (IH _ _ _ _ Hrest HL1) as (rec' & HL' & Hk').
    exists rec'. split; [done|]. intros e. by rewrite Hk', Hk1.
Qed.

(** X5. Over the merge of all substitutional species every facet of the
    bulk-only table stays in the table with the chemical potentials of all
    its elements; the table never gets smaller, so a bulk-only table with
    more labels than the bulk has elements makes the check fire whatever
    is merged. *)
Theorem merged_table_extends self entry_list chem_lims finchem_lims :
  merged_table self entry_list chem_lims = inr finchem_lims →
  (∀ L rec, rekey_bulk chem_lims !! L = Some rec →
     ∃ rec', finchem_lims !! L = Some rec' ∧
             ∀ e, rec' !! KElement e = rec !! KElement e) ∧
  size (rekey_bulk chem_lims) ≤ size finchem_lims ∧
  (length (bulk_species_symbol self) < size (rekey_bulk chem_lims) →
   overdependent_chempot finchem_lims
     (length (bulk_species_symbol self)) = true).
Proof.
  unfold merged_table. intros Hm.
  assert (Hkeep : ∀ L rec, rekey_bulk chem_lims !! L = Some rec →
     ∃ rec', finchem_lims !! L = Some rec' ∧
             ∀ e, rec' !! KElement e = rec !! KElement e).
  { intros L rec. by apply (merge_all_keeps _ _ _ _ _ _ _ _ _ Hm). }
  assert (Hsize : size (rekey_bulk chem_lims) ≤ size finchem_lims).
  { rewrite <- !size_dom. apply subseteq_size. intros L HL.
    apply elem_of_dom in HL as [rec HL]. apply elem_of_dom.
    destruct (Hkeep L rec HL) as (rec' & -> & _). eauto. }
  split_and!; [done..|].
  intros Hlt. unfold overdependent_chempot.
  apply negb_true_iff, Nat.eqb_neq. lia.
Qed.

End MergeAll.

Section MergeLoop.
Implicit Types (fin : gmap string (gmap Key Val)) (vec rec : gmap Key Val).

Lemma merge_facet_new_label n sub_el fin fin' kv L :
  merge_facet n sub_el fin kv = inr fin' →
  is_Some (fin' !! L) →
  is_Some (fin !! L) ∨
  (facet_accepted n sub_el kv.1 = true ∧ bulk_label sub_el kv.1 = L).
Proof.
  intros Hm HL. destruct kv as [key vec].
  destruct (facet_accepted n sub_el key) eqn:Hacc.
  - pose proof (merge_facet_accepted _ _ _ _ _ _ Hacc Hm) as Hinv.
    unfold bulk_label. simpl.
    destruct (diff_bulk_sub_phases _ _) as [[blk blknom] subnom].
    destruct Hinv as (rec1 & nm & _ & _ & ->). simpl.
    destruct (decide (blknom = L)) as [->|Hne]; [by right|].
    rewrite lookup_insert_ne in HL by done. by left.
  - rewrite merge_facet_rejected in Hm by done. injection Hm as <-. by left.
Qed.

(** X6. A label that the merge of one substitutional species adds to the
    table is the bulk label of an accepted facet of the augmented solve. *)
Theorem merge_loop_new_labels n sub_el
    (items : list (string * gmap Key Val)) fin fin' L :
  foldM (merge_facet n sub_el) fin items = inr fin' →
  is_Some (fin' !! L) →
  fin !! L = None →
  ∃ kv, kv ∈ items ∧ facet_accepted n sub_el kv.1 = true ∧
        bulk_label sub_el kv.1 = L.
Proof.
  revert fin. induction items as [|kv items IH]; intros fin; simpl.
  - intros [= <-] [rec Hs] Hn. congruence.
  - exn_simpl.
    destruct (merge_facet n sub_el fin kv) as [|fin1] eqn:H1; [done|].
    intros Hrest HL Hnone.
    destruct (fin1 !! L) as [rec1|] eqn:HL1.
    + destruct (merge_facet_new_label _ _ _ _ _ L H1) as [[rec Hs]|[Hacc Hlab]].
      * by rewrite HL1.
      * congruence.
      * exists kv. split_and!; [left|done..].
    + destruct (IH fin1 Hrest HL HL1) as (kv' & Hin & Hacc & Hlab).
      exists kv'. split_and!; [by right|done..].
Qed.

End MergeLoop.

Section MergeErrors.
Implicit Types (fin : gmap string (gmap Key Val)) (vec rec : gmap Key Val).

Lemma element_keyed_no_name vec : element_keyed vec → vec !! name_append = None.
Proof.
  intros Hk. destruct (vec !! name_append) eqn:Hn; [|done].
  destruct (Hk name_append) as [e He]; [by rewrite Hn|]. discriminate He.
Qed.

Lemma names_are_strings_insert fin L rec nm :
  names_are_strings fin →
  names_are_strings (<[L := <[name_append := VStr nm]> rec]> fin).
Proof.
  intros Hfin L' rec' x. destruct (decide (L = L')) as [->|Hne].
  - rewrite lookup_insert_eq. intros [= <-]. by rewrite lookup_insert_eq.
  - rewrite lookup_insert_ne by done. apply Hfin.
Qed.

(** One facet, with a vector as pymatgen returns it and a table whose
    'name-append' entries are strings: the step keeps the table that way,
    or raises [KeyError] because the facet is accepted, its bulk label is
    in the table and the vector has no entry for [sub_el]. *)
Lemma merge_facet_clean n sub_el fin key vec :
  sub_el ≠ "name-append" →
  element_keyed vec →
  names_are_strings fin →
  match merge_facet n sub_el fin (key, vec) with
  | inr fin' => names_are_strings fin'
  | inl e => e = KeyError ∧ vec !! KElement sub_el = None ∧
             facet_accepted n sub_el key = true ∧
             is_Some (fin !! bulk_label sub_el key)
  end.
Proof.
  intros Hs Hvec Hfin. unfold merge_facet, facet_accepted, bulk_label. simpl.
  destruct (diff_bulk_sub_phases _ _) as [[blk blknom] subnom]. simpl.
  destruct (length blk + 1 =? n)%nat; [|done].
  unfold append_name.
  destruct (fin !! blknom) as [rec|] eqn:Hrec; exn_simpl.
  - destruct (vec !! KElement sub_el) as [mu|] eqn:Hmu; [|by eauto].
    rewrite lookup_insert_eq, lookup_insert_ne
      by (unfold name_append; congruence).
    destruct (rec !! name_append) as [[x|old]|] eqn:Hn.
    + by destruct (Hfin _ _ x Hrec).
    + rewrite insert_insert_eq. by apply names_are_strings_insert.
    + rewrite insert_insert_eq. by apply names_are_strings_insert.
  - rewrite lookup_insert_eq, (element_keyed_no_name vec Hvec).
    rewrite insert_insert_eq. by apply names_are_strings_insert.
Qed.

(** X7. When the vectors of the augmented solve are keyed by elements
    only and every 'name-append' of the table is a string, the merge of
    one substitutional species keeps the table that way and can fail with
    [KeyError] only, never with [TypeError]; it does not fail when every
    vector has the chemical potential of [sub_el]. *)
Theorem merge_loop_errors n sub_el (items : list (string * gmap Key Val)) fin :
  sub_el ≠ "name-append" →
  Forall (λ kv, element_keyed kv.2) items →
  names_are_strings fin →
  match foldM (merge_facet n sub_el) fin items with
  | inr fin' => names_are_strings fin'
  | inl e => e = KeyError
  end ∧
  (Forall (λ kv, is_Some (kv.2 !! KElement sub_el)) items →
   ∃ fin', foldM (merge_facet n sub_el) fin items = inr fin').
Proof.
  intros Hs Hitems. revert fin.
  induction Hitems as [|[key vec] items Hvec _ IH]; intros fin Hfin.
  - split; [done|]. by eexists.
  - simpl in Hvec. cbn [foldM]. exn_simpl.
    pose proof (merge_facet_clean n sub_el fin key vec Hs Hvec Hfin) as Hstep.
    destruct (merge_facet n sub_el fin (key, vec)) as [e|fin1].
    + destruct Hstep as (-> & Hnone & _). split; [done|].
      intros Hmu. inversion Hmu as [|? ? [mu Hm] _]; subst.
      simpl in Hm. congruence.
    + destruct (IH fin1 Hstep) as [Hres Htot]. split; [done|].
      intros Hmu. inversion Hmu; subst. by apply Htot.
Qed.

End MergeErrors.

(** ** get_mp_entries *)

Section GetEntries.
Context {mp : MPRester}.
Implicit Types (self : MPChemPotAnalyzer) (subs : list (string * list Entry)).

Lemma alist_get_set_eq {V} k (v : V) d : alist_get k (alist_set k v d) = Some v.
Proof.
  induction d as [|[k' v'] d IH]; simpl.
  - by rewrite String.eqb_refl.
  - destruct (String.eqb_spec k k') as [->|Hne]; simpl.
    + by rewrite String.eqb_refl.
    + by destruct (String.eqb_spec k k').
Qed.

Lemma alist_get_set_ne {V} k k' (v : V) d :
  k ≠ k' → alist_get k' (alist_set k v d) = alist_get k' d.
Proof.
  intros Hne. induction d as [|[k1 v1] d IH]; simpl.
  - by destruct (String.eqb_spec k' k) as [->|_].
  - destruct (String.eqb_spec k k1) as [->|Hk]; simpl.
    + destruct (String.eqb_spec k' k1) as [->|_]; [done|done].
    + destruct (String.eqb_spec k' k1); [done|apply IH].
Qed.

(** What a successful call of the dilute branch has done. *)
Lemma get_mp_entries_dilute_inv self self' :
  get_mp_entries self false = inr self' →
  ∃ b0 b1 bd subs,
    (bulk_ce self = Some b0 ∨
     (bulk_ce self = None ∧
      ∃ id, PyStr.truth (mpid self) = Some id ∧
            get_entry_by_material_id id = inr b0)) ∧
    match bulk_ce self, PyStr.truth (mpid self) with
    | Some _, Some id => get_entry_by_material_id id = inr b1
    | _, _ => b1 = b0
    end ∧
    get_entries_in_chemsys (elements (composition b0)) = inr bd ∧
    foldM (fetch_sub_entries (elements (composition b0)) (entry_id <$> bd))
          [] (sub_species self) = inr subs ∧
    self' = mkMP (Some b1) (sub_species self) (mkEntries bd subs) (mpid self)
              (elements (composition b0))
              (reduced_composition (composition b0)).
Proof.
  unfold get_mp_entries. exn_simpl.
  destruct (bulk_ce self) as [b0|] eqn:Hb.
  - simpl. destruct (get_entries_in_chemsys _) as [|bd] eqn:Hbd; [done|].
    destruct (PyStr.truth (mpid self)) as [id|] eqn:Hid.
    + destruct (get_entry_by_material_id id) as [|b1] eqn:Hb1; [done|].
      simpl.
      destruct (foldM _ [] (sub_species self)) as [|subs] eqn:Hs; [done|].
      intros [= <-]. exists b0, b1, bd, subs. split_and!; eauto.
    + simpl.
      destruct (foldM _ [] (sub_species self)) as [|subs] eqn:Hs; [done|].
      intros [= <-]. exists b0, b0, bd, subs. split_and!; eauto.
      unfold set_entries, set_bulk_info. simpl. by rewrite Hb.
  - destruct (PyStr.truth (mpid self)) as [id|] eqn:Hid; [|done].
    destruct (get_entry_by_material_id id) as [|b0] eqn:Hb0; [done|].
    simpl. destruct (get_entries_in_chemsys _) as [|bd] eqn:Hbd; [done|].
    rewrite Hid. simpl.
    destruct (foldM _ [] (sub_species self)) as [|subs] eqn:Hs; [done|].
    intros [= <-]. exists b0, b0, bd, subs. split_and!; eauto.
Qed.

(** The loop over the substitutional species of the dilute branch: it
    returns when every species has a non-empty answer, and then holds for
    each species the entries of its answer that are not bulk entries. *)
Lemma fetch_loop syms ids (species : list string) : ∀ subs0 subs,
  foldM (fetch_sub_entries syms ids) subs0 species = inr subs →
  ∀ s,
    (s ∈ species →
     ∃ ans, get_entries_in_chemsys (syms ++ [s]) = inr ans ∧ ans ≠ [] ∧
            alist_get s subs = Some (filter (λ e, entry_id e ∉ ids) ans)) ∧
    (s ∉ species → alist_get s subs = alist_get s subs0).
Proof.
  induction species as [|x species IH]; intros subs0 subs; simpl.
  - intros [= <-] s. split; [by intros ?%elem_of_nil|done].
  - exn_simpl. unfold fetch_sub_entries at 1. exn_simpl.
    destruct (get_entries_in_chemsys (syms ++ [x])) as [|ans] eqn:Hans; [done|].
    destruct ans as [|a ans]; [done|].
    intros Hrest s. destruct (IH _ _ Hrest s) as [Hin Hnot].
    split.
    + intros [->|Hs]%elem_of_cons; [|by apply Hin].
      destruct (decide (x ∈ species)) as [Hx|Hx]; [by apply Hin|].
      exists (a :: ans). split_and!; [done..|].
      by rewrite (Hnot Hx), alist_get_set_eq.
    + intros Hs. apply not_elem_of_cons in Hs as [Hne Hs].
      rewrite (Hnot Hs). by apply alist_get_set_ne.
Qed.

(** X8. After a successful call of the dilute branch the bulk-derived
    entries are the answer for the elements of the bulk; every
    substitutional species has a key in 'subs_set', holding the entries of
    its non-empty answer whose id is not the id of a bulk-derived entry,
    and nothing else has a key. So the lookup of line 216 cannot fail. *)
Theorem get_mp_entries_dilute_subs self self' :
  get_mp_entries self false = inr self' →
  get_entries_in_chemsys (bulk_species_symbol self')
    = inr (bulk_derived (entries self')) ∧
  sub_species self' = sub_species self ∧
  ∀ s,
    (s ∈ sub_species self →
     ∃ ans,
       get_entries_in_chemsys (bulk_species_symbol self' ++ [s]) = inr ans ∧
       ans ≠ [] ∧
       alist_get s (subs_set (entries self')) =
         Some (filter (λ e, entry_id e ∉
                            entry_id <$> bulk_derived (entries self')) ans)) ∧
    (s ∉ sub_species self → alist_get s (subs_set (entries self')) = None).
Proof.
  intros Hg.
  apply get_mp_entries_dilute_inv in Hg
    as (b0 & b1 & bd & subs & _ & _ & Hbd & Hsubs & ->).
  simpl. split_and!; [done..|].
  intros s. destruct (fetch_loop _ _ _ _ _ Hsubs s) as [Hin Hnot].
  split; [done|]. intros Hs. by rewrite (Hnot Hs).
Qed.

(** X9. When a bulk entry and a Materials Project id are both given, the
    dilute branch replaces the bulk entry by the entry of that id, but
    [bulk_species_symbol] and [redcomp] stay those of the entry that was
    given. *)
Theorem get_mp_entries_override self self' b0 id :
  bulk_ce self = Some b0 →
  PyStr.truth (mpid self) = Some id →
  get_mp_entries self false = inr self' →
  (∃ b1, get_entry_by_material_id id = inr b1 ∧ bulk_ce self' = Some b1) ∧
  bulk_species_symbol self' = elements (composition b0) ∧
  redcomp self' = reduced_composition (composition b0).
Proof.
  intros Hb Hid Hg.
  apply get_mp_entries_dilute_inv in Hg
    as (b0' & b1 & bd & subs & Hfirst & Hb1 & _ & _ & ->).
  rewrite Hb, Hid in Hb1.
  destruct Hfirst as [Hf|[Hf _]]; [|congruence].
  assert (b0' = b0) as -> by congruence.
  simpl. split_and!; eauto.
Qed.

End GetEntries.

Section GetEntriesFull.
Context {mp : MPRester}.
Implicit Types (self : MPChemPotAnalyzer) (subs : list (string * list Entry)).

Lemma init_subs_get (species : list string) : ∀ subs0 s,
  alist_get s (foldl (λ subs x, alist_set x ([] : list Entry) subs)
                     subs0 species) =
  if decide (s ∈ species) then Some [] else alist_get s subs0.
Proof.
  induction species as [|x species IH]; intros subs0 s; cbn [foldl].
  - by destruct (decide (s ∈ [])) as [?%elem_of_nil|].
  - rewrite IH. destruct (decide (s ∈ species)) as [Hs|Hs].
    + rewrite decide_True; [done|by right].
    + destruct (decide (s = x)) as [->|Hne].
      * rewrite decide_True by left. apply alist_get_set_eq.
      * rewrite decide_False by (by intros [?|?]%elem_of_cons).
        by apply alist_get_set_ne.
Qed.

(** The inner loop for one entry: the entry is appended under every
    species its composition contains. *)
Lemma inner_subs_get (entry : Entry) (ks : list string) :
  NoDup ks → ∀ subs s,
  alist_get s
    (foldl (λ subs sub_el,
       if in_composition sub_el entry then
         match alist_get sub_el subs with
         | Some l => alist_set sub_el (l ++ [entry]) subs
         | None => subs
         end
       else subs) subs ks) =
  if decide (s ∈ ks) then
    if in_composition s entry then (λ l, l ++ [entry]) <$> alist_get s subs
    else alist_get s subs
  else alist_get s subs.
Proof.
  induction 1 as [|k ks Hk _ IH]; intros subs s.
  - cbn [foldl]. by destruct (decide (s ∈ [])) as [?%elem_of_nil|].
  - cbn [foldl]. rewrite IH.
    destruct (decide (s = k)) as [->|Hne].
    + rewrite (decide_False (P := k ∈ ks)) by done.
      rewrite decide_True by left.
      destruct (in_composition k entry); [|done].
      destruct (alist_get k subs) as [l|] eqn:Hl; simpl.
      * apply alist_get_set_eq.
      * done.
    + assert (∀ subs', alist_get s
        (if in_composition k entry then
           match alist_get k subs with
           | Some l => alist_set k (l ++ [entry]) subs
           | None => subs
           end
         else subs) = alist_get s subs) as Hsame.
      { intros _. destruct (in_composition k entry); [|done].
        destruct (alist_get k subs); [|done]. by apply alist_get_set_ne. }
      rewrite (Hsame subs).
      destruct (decide (s ∈ ks)) as [Hs|Hs].
      * rewrite decide_True by (by right). done.
      * rewrite decide_False by (by intros [?|?]%elem_of_cons). done.
Qed.

Lemma collect_subs_get (species : list string) (bd : list Entry) s :
  NoDup species →
  alist_get s (collect_subs species bd) =
  if decide (s ∈ species)
  then Some (filter (λ e, in_composition s e) bd) else None.
Proof.
  intros Hnd. unfold collect_subs.
  assert (∀ subs,
    alist_get s
      (foldl (λ subs entry,
         foldl (λ subs sub_el,
           if in_composition sub_el entry then
             match alist_get sub_el subs with
             | Some l => alist_set sub_el (l ++ [entry]) subs
             | None => subs
             end
           else subs) subs species) subs bd) =
    if decide (s ∈ species)
    then (λ l, l ++ filter (λ e, in_composition s e) bd) <$> alist_get s subs
    else alist_get s subs) as Hout.
  { induction bd as [|e bd IH]; intros subs.
    - cbn [foldl]. destruct (decide (s ∈ species)); [|done].
      destruct (alist_get s subs); simpl; [|done]. by rewrite app_nil_r.
    - cbn [foldl]. rewrite IH, inner_subs_get by done.
      destruct (decide (s ∈ species)); [|done].
      rewrite filter_cons.
      destruct (in_composition s e) eqn:He.
      + rewrite decide_True by done.
        destruct (alist_get s subs); simpl; [|done].
        by rewrite <- app_assoc.
      + rewrite decide_False by (simpl; tauto). done. }
  rewrite Hout, init_subs_get.
  destruct (decide (s ∈ species)); done.
Qed.

(** X10. After a successful call of the full branch the bulk-derived
    entries are the one answer for the bulk elements and all
    substitutional species together, 'subs_set' holds under each species
    the entries of that list whose composition contains it, and a bulk
    entry that was given is kept. *)
Theorem get_mp_entries_full self self' :
  NoDup (sub_species self) →
  get_mp_entries self true = inr self' →
  get_entries_in_chemsys (bulk_species_symbol self' ++ sub_species self)
    = inr (bulk_derived (entries self')) ∧
  (∀ s, alist_get s (subs_set (entries self')) =
        if decide (s ∈ sub_species self)
        then Some (filter (λ e, in_composition s e)
                          (bulk_derived (entries self')))
        else None) ∧
  (∀ b, bulk_ce self = Some b → bulk_ce self' = Some b).
Proof.
  intros Hnd. unfold get_mp_entries. exn_simpl.
  destruct (bulk_ce self) as [b0|] eqn:Hb.
  - simpl. destruct (get_entries_in_chemsys _) as [|bd] eqn:Hbd; [done|].
    intros [= <-]. simpl. split_and!; [done| |].
    + intros s. by apply collect_subs_get.
    + intros b [= <-]. done.
  - destruct (PyStr.truth (mpid self)) as [id|]; [|done].
    destruct (get_entry_by_material_id id) as [|b0]; [done|].
    simpl. destruct (get_entries_in_chemsys _) as [|bd] eqn:Hbd; [done|].
    intros [= <-]. simpl. split_and!; [done| |done].
    intros s. by apply collect_subs_get.
Qed.

End GetEntriesFull.

(** ** More on analyze_GGA_chempots *)

Section AnalyzeMore.
Context {pdlib : PhaseDiagramLib} {mp : MPRester}.
Implicit Types (self : MPChemPotAnalyzer).

(** X11. Without a bulk entry and without a Materials Project id the
    analysis raises [ValueError], in both modes, whatever the database
    and the phase-diagram library would answer. *)
Theorem analyze_without_bulk self full_sub_approach :
  bulk_ce self = None →
  PyStr.truth (mpid self) = None →
  ∃ msg,
    get_mp_entries self full_sub_approach = inl (ValueError msg) ∧
    analyze_GGA_chempots self full_sub_approach = inl (ValueError msg).
Proof.
  intros Hb Hid.
  assert (Hg : ∃ msg,
    get_mp_entries self full_sub_approach = inl (ValueError msg)).
  { unfold get_mp_entries. rewrite Hb, Hid. by eexists. }
  destruct Hg as [msg Hg]. exists msg.
  split; [exact Hg|]. unfold analyze_GGA_chempots. by rewrite Hg.
Qed.

(** A successful analysis has a successful bulk-only part, and leaves
    the analyzer of that part with a longer entry list. *)
Lemma analyze_inv self full t self'' :
  analyze_GGA_chempots self full = inr (t, self'') →
  ∃ self' entry_list chem_lims,
    bulk_only_solve self full = inr (self', entry_list, chem_lims) ∧
    (self'' = set_bulk_derived entry_list self' ∨
     (full = false ∧
      self'' = set_bulk_derived
                 (entry_list ++ all_sub_entries (subs_set (entries self')))
                 self')) ∧
    (full = true → t = dict_of_items chem_lims).
Proof.
  unfold analyze_GGA_chempots, bulk_only_solve. exn_simpl.
  destruct (get_mp_entries self full) as [|s1]; [done|].
  destruct (bulk_ce s1) as [b|] eqn:Hb; [|done].
  destruct (PhaseDiagram (bulk_derived (entries s1))) as [|pd0]; [done|].
  destruct (classifyStability pd0 b (redcomp s1) (bulk_derived (entries s1)))
    as [[d st] el].
  destruct (PhaseDiagram el) as [|pd]; [done|].
  destruct (get_chempots_from_pd (Some b) pd) as [|cl]; [done|].
  destruct full; cbn [negb].
  - intros [= <- <-]. eexists _, _, _. split; [done|]. split; [by left|done].
  - destruct (foldM _ (rekey_bulk cl) (sub_species s1)) as [|fin]; [done|].
    destruct (overdependent_chempot fin (length (bulk_species_symbol s1))).
    + destruct (PhaseDiagram (el ++ _)) as [|pd2]; [done|]. lazy beta iota.
      destruct (get_chempots_from_pd (Some b) pd2) as [|cl2]; [done|].
      intros [= <- <-]. eexists _, _, _. split; [done|].
      split; [by right|done].
    + intros [= <- <-]. eexists _, _, _. split; [done|].
      split; [by left|done].
Qed.

(** With [full_sub_approach] the analysis returns the table of its
    one solve as it is: the facet names of the library are the keys, no
    vector is changed, nothing is merged and no check is made. *)
Lemma analyze_full_mode self :
  analyze_GGA_chempots self true =
    '(self', entry_list, chem_lims) ← bulk_only_solve self true;
    mret (dict_of_items chem_lims, set_bulk_derived entry_list self').
Proof.
  unfold analyze_GGA_chempots, bulk_only_solve. exn_simpl.
  destruct (get_mp_entries self true) as [|s1]; [done|].
  destruct (bulk_ce s1) as [b|] eqn:Hb; [|done].
  destruct (PhaseDiagram (bulk_derived (entries s1))) as [|pd0]; [done|].
  destruct (classifyStability pd0 b (redcomp s1) (bulk_derived (entries s1)))
    as [[d st] el].
  destruct (PhaseDiagram el) as [|pd]; [done|].
  by destruct (get_chempots_from_pd (Some b) pd) as [|cl].
Qed.

(** X12. The analysis only appends to the entry list under
    'bulk_derived': after a successful call the list is the list fetched
    by [get_mp_entries] followed by entries that are the bulk entry or
    entries of 'subs_set'; the bulk entry, the species, 'subs_set',
    [bulk_species_symbol] and [redcomp] are as [get_mp_entries] left
    them. *)
Theorem analyze_appends_only self full t self'' :
  analyze_GGA_chempots self full = inr (t, self'') →
  ∃ self' extra,
    get_mp_entries self full = inr self' ∧
    bulk_derived (entries self'') = bulk_derived (entries self') ++ extra ∧
    (∀ e, e ∈ extra →
          bulk_ce self' = Some e ∨
          e ∈ all_sub_entries (subs_set (entries self'))) ∧
    subs_set (entries self'') = subs_set (entries self') ∧
    bulk_ce self'' = bulk_ce self' ∧
    sub_species self'' = sub_species self' ∧
    bulk_species_symbol self'' = bulk_species_symbol self' ∧
    redcomp self'' = redcomp self'.
Proof.
  intros Ha.
  apply analyze_inv in Ha as (self' & el & cl & Hb & Hs & _).
  apply bulk_only_solve_inv in Hb
    as (Hg & b & pd0 & pd & Hbce & _ & Hc & _).
  exists self'.
  assert (Hel : el = bulk_derived (entries self') ∨
                el = bulk_derived (entries self') ++ [b])
    by (rewrite <- Hc; apply classifyStability_list).
  clear Hc. destruct Hel as [->| ->]; destruct Hs as [->|[_ ->]]; simpl.
  - exists []. rewrite app_nil_r. split_and!; try done.
    intros e Hin. by apply elem_of_nil in Hin.
  - exists (all_sub_entries (subs_set (entries self'))).
    split_and!; try done. auto.
  - exists [b]. split_and!; try done.
    intros e ->%list_elem_of_singleton. by left.
  - exists ([b] ++ all_sub_entries (subs_set (entries self'))).
    rewrite <- app_assoc. split_and!; try done.
    intros e [->%list_elem_of_singleton|Hin]%elem_of_app; auto.
Qed.

End AnalyzeMore.

(** ** The rounding in the stability test *)

Section Threshold.

(** X13. The energy above the hull is rounded to four decimals before
    it is compared with zero, so the bulk entry need not be on the hull
    to count as stable: an entry less than 0.00005 above the hull is
    treated as stable, and an entry 0.0001 or more above the hull never
    is. In between, the outcome turns on the rounding of the float at
    the tie. *)
Theorem classifyStability_threshold pd bulk_ce redcomp entry_list :
  let '(decomp_en, status, _) :=
    classifyStability pd bulk_ce redcomp entry_list in
  let e := get_decomp_and_e_above_hull pd bulk_ce in
  ((e < 1 # 20000)%Q → status = STABLE_KNOWN ∨ status = STABLE_NEW) ∧
  ((1 # 10000 <= e)%Q →
   status = UNSTABLE_KNOWN_PHASE ∨ status = UNSTABLE_NEW).
Proof.
  unfold classifyStability.
  set (e := get_decomp_and_e_above_hull pd bulk_ce).
  destruct (round4_near e) as ([m Hm] & Hlo & Hhi).
  pose proof (Qle_bool_iff (round4 e) 0) as Hle.
  assert (Hpos : ∀ d : positive, (Z.pos (d * 20000) = Z.pos d * 20000)%Z)
    by (intros; lia).
  assert (H1 : (e < 1 # 20000)%Q → Qle_bool (round4 e) 0 = true).
  { intros He. apply Hle. rewrite Hm in Hhi |- *. clear Hm Hle Hlo.
    destruct e as [a d]. unfold Qle, Qlt, Qminus, Qplus, Qopp in *.
    cbn [Qnum Qden] in *. rewrite Hpos in Hhi. nia. }
  assert (H2 : (1 # 10000 <= e)%Q → Qle_bool (round4 e) 0 = false).
  { intros He. apply not_true_is_false. intros Hb.
    apply Hle in Hb. rewrite Hm in Hlo, Hb. clear Hm Hle Hhi.
    destruct e as [a d]. unfold Qle, Qlt, Qminus, Qplus, Qopp in *.
    cbn [Qnum Qden] in *. rewrite Hpos in Hlo. nia. }
  destruct (Qle_bool (round4 e) 0) eqn:Hb;
    destruct (stable_composition_exists pd redcomp); simpl;
    (split; [intros He; try (specialize (H1 He); discriminate); auto
            | intros He; try (specialize (H2 He); discriminate); auto]).
Qed.

End Threshold.

(** ** More on the local pipeline *)

Section LocalMore.
Context {pdlib : PhaseDiagramLib}.
Implicit Types (self : UserChemPotAnalyzer) (l : list Entry).

(** The loop over the substitutional species of the local pipeline, when
    no substitution entry was collected and the solve of the bulk entries
    gives [chem_lims]: every turn solves the bulk entries again, and
    raises at the first facet. *)
Lemma user_species_loop b entry_list pd chem_lims fin (species : list string) :
  PhaseDiagram entry_list = inr pd →
  get_chempots_from_pd (Some b) pd = inr chem_lims →
  foldM (user_merge_sub_el (Some b) entry_list []) fin species =
    match species, chem_lims with
    | [], _ | _, [] => inr fin
    | _ :: _, _ :: _ => inl AttributeError
    end.
Proof.
  intros Hpd Hcl. induction species as [|s species IH]; [done|].
  assert (Hstep : user_merge_sub_el (Some b) entry_list [] fin s =
    match chem_lims with [] => inr fin | _ :: _ => inl AttributeError end).
  { unfold user_merge_sub_el.
    change (filter _ (@nil Entry)) with (@nil Entry).
    rewrite app_nil_r, Hpd. unfold mbind, exn_bind. rewrite Hcl.
    destruct chem_lims as [|kv cl]; [done|].
    cbn [foldM]. unfold user_merge_facet.
    by destruct (diff_bulk_sub_phases _ _) as [[? ?] ?]. }
  cbn [foldM]. rewrite Hstep. unfold mbind, exn_bind.
  destruct chem_lims as [|kv cl]; [|done].
  rewrite IH. by destruct species.
Qed.

(** X14. The dilute branch of the local pipeline in closed form: after
    the fake entries and the separation, one solve of the bulk entries
    decides. Without substitutional species its table is returned under
    sorted labels, with no check on the number of labels; with a
    substitutional species the call raises [AttributeError] as soon as
    that solve has a facet, and returns the empty table when it has
    none. *)
Theorem user_dilute_closed_form self l bulk_vasprun b :
  match user_bulk_ce self with
  | Some b' => Some b'
  | None => bulk_vasprun
  end = Some b →
  read_phase_diagram_and_chempots self (Some l) bulk_vasprun false =
    l' ← add_fake_elements b l;
    '(entry_list, _) ←
      separate_entries (elements (composition b)) (l' ++ [b]);
    pd ← PhaseDiagram entry_list;
    chem_lims ← get_chempots_from_pd (Some b) pd;
    match user_sub_species self, chem_lims with
    | [], _ => mret (Some (rekey_bulk chem_lims))
    | _ :: _, [] => mret (Some ∅)
    | _ :: _, _ :: _ => raise AttributeError
    end.
Proof.
  intros Hb. unfold read_phase_diagram_and_chempots. rewrite Hb.
  unfold mbind, exn_bind, mret, exn_ret, raise.
  destruct (add_fake_elements b l) as [|l']; [done|]. lazy beta iota.
  rewrite separate_entries_eq.
  destruct (forallb _ (l' ++ [b])); [|done]. lazy beta iota.
  destruct (PhaseDiagram (l' ++ [b])) as [|pd] eqn:Hpd; [done|].
  lazy beta iota.
  destruct (get_chempots_from_pd (Some b) pd) as [|cl] eqn:Hcl; [done|].
  lazy beta iota.
  rewrite (user_species_loop b _ pd cl _ _ Hpd Hcl).
  destruct (user_sub_species self) as [|s rest]; [done|].
  by destruct cl.
Qed.

(** X15. The pipeline returns [None], without raising, exactly when the
    folder 'PhaseDiagram' does not exist or no bulk entry is given or
    found. *)
Theorem read_returns_none_iff self pdfile bulk_vasprun full_sub_approach :
  read_phase_diagram_and_chempots self pdfile bulk_vasprun full_sub_approach
    = inr None ↔
  pdfile = None ∨ (user_bulk_ce self = None ∧ bulk_vasprun = None).
Proof.
  unfold read_phase_diagram_and_chempots. split.
  - destruct pdfile as [l|]; [|by left].
    destruct (user_bulk_ce self) as [b|] eqn:Hu;
      [|destruct bulk_vasprun as [b|]; [|by right]];
      unfold mbind, exn_bind, mret, exn_ret, raise; intros Hres; exfalso;
      (destruct (add_fake_elements b l) as [|l']; [done|]);
      lazy beta iota in Hres;
      (destruct full_sub_approach;
       [ destruct (PhaseDiagram _); [done|]; lazy beta iota in Hres;
         destruct (get_chempots_from_pd _ _); done
       | destruct (separate_entries _ _) as [|[el sl]]; [done|];
         lazy beta iota in Hres;
         destruct (PhaseDiagram _); [done|]; lazy beta iota in Hres;
         destruct (get_chempots_from_pd _ _); [done|];
         lazy beta iota in Hres;
         destruct (foldM _ _ _); done ]).
  - intros [->|[-> ->]]; [done|]. by destruct pdfile.
Qed.

(** X16. With [full_sub_approach] the local pipeline separates nothing:
    when every pure-element entry read, the bulk entry included, is of an
    element of the bulk, the one solve is run on the entries read, the
    bulk entry, one fake entry of energy zero for each element of the
    bulk without pure-element entry, and the bulk entry once more; entries
    with elements outside the bulk are part of that solve. *)
Theorem user_full_solve_list self l bulk_vasprun b :
  match user_bulk_ce self with
  | Some b' => Some b'
  | None => bulk_vasprun
  end = Some b →
  (∀ p elt, p ∈ l ++ [b] → is_element p = true →
            is_Some (composition p !! elt) →
            is_Some (composition b !! elt)) →
  ∃ fakes,
    (∀ f, f ∈ fakes ↔
       ∃ elt, f = fake_entry elt ∧ is_Some (composition b !! elt) ∧
              ∀ p, p ∈ l ++ [b] → is_element p = true →
                   composition p !! elt = None) ∧
    read_phase_diagram_and_chempots self (Some l) bulk_vasprun true =
      pd ← PhaseDiagram (l ++ [b] ++ fakes ++ [b]);
      chem_lims ← get_chempots_from_pd (Some b) pd;
      mret (Some (dict_of_items chem_lims)).
Proof.
  intros Hb Hpure.
  destruct (add_fake_elements_ok b l Hpure) as (fakes & Hadd & Hfakes).
  exists fakes. split; [done|].
  unfold read_phase_diagram_and_chempots. rewrite Hb, Hadd. exn_simpl.
  by rewrite <- !app_assoc.
Qed.

End LocalMore.

(** ** Solving for a composition *)

Section FromComposition.
Context {pdlib : PhaseDiagramLib} {mp : MPRester}.

Lemma elements_reduced (c : Composition) :
  elements (reduced_composition c) = elements c.
Proof.
  unfold elements, reduced_composition.
  destruct (comp_gcd c =? 0)%N; [done|].
  rewrite map_to_list_fmap, <- list_fmap_compose.
  apply list_fmap_ext. by intros _ [k n] _.
Qed.

Lemma get_chempots_from_composition_inv d c t d' s :
  get_chempots_from_composition d c = inr (t, d', s) →
  ∃ bd pd,
    d' = WithBulkDerived bd ∧
    PhaseDiagram bd = inr pd ∧
    get_all_chempots pd (reduced_composition c) = inr t ∧
    match d with
    | EmptyDict =>
        get_entries_in_chemsys (elements c) = inr bd ∧ s = Some (elements c)
    | _ => d' = d ∧ s = None
    end.
Proof.
  unfold get_chempots_from_composition.
  rewrite elements_reduced.
  unfold mbind, exn_bind, mret, exn_ret, raise.
  destruct d as [| |bd0]; [|discriminate|].
  - destruct (get_entries_in_chemsys (elements c)) as [|bd]; [discriminate|].
    destruct (PhaseDiagram bd) as [|pd] eqn:Hpd; [discriminate|].
    destruct (get_all_chempots pd _) as [|cl] eqn:Hcl; [discriminate|].
    intros [= <- <- <-]. by exists bd, pd.
  - destruct (PhaseDiagram bd0) as [|pd] eqn:Hpd; [discriminate|].
    destruct (get_all_chempots pd _) as [|cl] eqn:Hcl; [discriminate|].
    intros [= <- <- <-]. by exists bd0, pd.
Qed.

(** X17. A first call of [get_chempots_from_composition], on an analyzer
    whose dict of entries is empty, asks the database for the chemical
    system of the elements of the composition and keeps the answer under
    'bulk_derived'; every later call, for whatever composition, asks
    nothing and solves on the entries kept by the first call. *)
Theorem get_chempots_from_composition_reuse c1 t1 d1 s1 :
  get_chempots_from_composition EmptyDict c1 = inr (t1, d1, s1) →
  ∃ bd,
    get_entries_in_chemsys (elements c1) = inr bd ∧
    d1 = WithBulkDerived bd ∧
    s1 = Some (elements c1) ∧
    ∀ c2,
      get_chempots_from_composition d1 c2 =
        (pd ← PhaseDiagram bd;
         chem_lims ← get_all_chempots pd (reduced_composition c2);
         mret (chem_lims, d1, None)).
Proof.
  intros (bd & pd & -> & Hpd & Hcl & Hq)%get_chempots_from_composition_inv.
  destruct Hq as [Hq ->].
  exists bd. split_and!; [done..|].
  intros c2. reflexivity.
Qed.

(** [get_chempots_from_composition] fails with KeyError on a dict
    that has keys but not 'bulk_derived', and whenever it returns on a
    dict that was not empty it has left the dict as it was, has not set
    [bulk_species_symbol], and has solved on the list under 'bulk_derived'
    alone: the composition asked for is not looked up in the database. *)
Lemma get_chempots_from_composition_filled d c :
  d ≠ EmptyDict →
  match get_chempots_from_composition d c with
  | inl e =>
      d = OtherKeysOnly ∧ e = KeyError ∨
      ∃ bd, d = WithBulkDerived bd ∧
            (pd ← PhaseDiagram bd;
             get_all_chempots pd (reduced_composition c)) = inl e
  | inr (t, d', s) =>
      d' = d ∧ s = None ∧
      ∃ bd, d = WithBulkDerived bd ∧
            (pd ← PhaseDiagram bd;
             get_all_chempots pd (reduced_composition c)) = inr t
  end.
Proof.
  intros Hd. unfold get_chempots_from_composition.
  unfold mbind, exn_bind, mret, exn_ret, raise.
  destruct d as [| |bd]; lazy beta iota; [done|by left|].
  destruct (PhaseDiagram bd) as [e|pd] eqn:Hpd; lazy beta iota.
  { right. exists bd. by rewrite Hpd. }
  destruct (get_all_chempots pd _) as [e|cl] eqn:Hcl; lazy beta iota.
  { right. exists bd. by rewrite Hpd. }
  split_and!; [done..|]. exists bd. by rewrite Hpd.
Qed.

End FromComposition.

(** ** Setting up the calculations of a phase diagram *)

Section Setup.
Context {pdlib : PhaseDiagramLib} {mp : MPRester} {sl : StructureLib}.
Implicit Types (self : UserChemPotInputGenerator) (phases : list string)
  (acc r : list (string * Structure)).

Lemma alist_get_set_Some {V} k k' (v w : V) d :
  alist_get k (alist_set k' v d) = Some w ↔
  k = k' ∧ w = v ∨ k ≠ k' ∧ alist_get k d = Some w.
Proof.
  destruct (decide (k = k')) as [->|Hne].
  - rewrite alist_get_set_eq. split.
    + intros [= <-]. by left.
    + intros [[_ ->]|[? _]]; done.
  - rewrite alist_get_set_ne by done. split.
    + by right.
    + intros [[? _]|[_ ?]]; done.
Qed.

Lemma setup_step_eq phases pd t acc e :
  setup_step phases pd t acc e =
    if to_set_up phases pd t e then
      match get_structure_by_material_id (entry_id e) with
      | inl x => inl x
      | inr st => inr (alist_set (setup_key e) st acc)
      end
    else inr acc.
Proof. reflexivity. Qed.

Lemma setup_loop phases pd t (l : list Entry) : ∀ acc r,
  foldM (setup_step phases pd t) acc l = inr r →
  (∀ k, is_Some (alist_get k acc) → is_Some (alist_get k r)) ∧
  (∀ e, e ∈ l → to_set_up phases pd t e = true →
        is_Some (alist_get (setup_key e) r)) ∧
  (∀ k st, alist_get k r = Some st →
     alist_get k acc = Some st ∨
     ∃ e, e ∈ l ∧ to_set_up phases pd t e = true ∧ setup_key e = k ∧
          get_structure_by_material_id (entry_id e) = inr st).
Proof.
  induction l as [|e l IH]; intros acc r.
  - cbn [foldM]. unfold mret, exn_ret.
    intros [= <-]. split_and!; [done| |by left].
    by intros e ?%elem_of_nil.
  - cbn [foldM]. unfold mbind, exn_bind. rewrite setup_step_eq.
    destruct (to_set_up phases pd t e) eqn:Hsel.
    + destruct (get_structure_by_material_id (entry_id e)) as [|st0] eqn:Hst;
        lazy beta iota; [discriminate|].
      intros (Hkeep & Hin & Hval)%IH. split_and!.
      * intros k [w Hk]. apply Hkeep.
        destruct (decide (k = setup_key e)) as [->|Hne].
        -- rewrite alist_get_set_eq. by eexists.
        -- rewrite alist_get_set_ne by done. by eexists.
      * intros e' [->|He']%elem_of_cons Hsel'; [|by apply Hin].
        apply Hkeep. rewrite alist_get_set_eq. by eexists.
      * intros k st [Hk|(e' & He' & Hsel' & Hkey & Hst')]%Hval.
        -- apply alist_get_set_Some in Hk as [[-> ->]|[_ Hk]]; [|by left].
           right. exists e. split_and!; [apply elem_of_cons; by left|done..].
        -- right. exists e'. split_and!; [apply elem_of_cons; by right|done..].
    + intros (Hkeep & Hin & Hval)%IH. split_and!; [done| |].
      * intros e' [->|He']%elem_of_cons Hsel'; [congruence|by apply Hin].
      * intros k st [Hk|(e' & He' & Hsel' & Hkey & Hst')]%Hval; [by left|].
        right. exists e'. split_and!; [apply elem_of_cons; by right|done..].
Qed.

Lemma to_set_up_mono phases pd (t1 t2 : Q) e :
  (t1 <= t2)%Q →
  to_set_up phases pd t1 e = true → to_set_up phases pd t2 e = true.
Proof.
  unfold to_set_up. intros Ht [Hn Hle]%andb_true_iff.
  apply andb_true_iff. split; [done|].
  apply Qle_bool_iff. apply Qle_bool_iff in Hle. by apply (Qle_trans _ t1).
Qed.

Lemma setup_loop_mono phases pd (t1 t2 : Q) (l : list Entry) :
  (t1 <= t2)%Q → ∀ acc1 acc2 r2,
  foldM (setup_step phases pd t2) acc2 l = inr r2 →
  ∃ r1, foldM (setup_step phases pd t1) acc1 l = inr r1.
Proof.
  intros Ht. induction l as [|e l IH]; intros acc1 acc2 r2.
  - intros _. by eexists.
  - cbn [foldM]. unfold mbind, exn_bind. rewrite !setup_step_eq.
    destruct (to_set_up phases pd t1 e) eqn:H1.
    + rewrite (to_set_up_mono _ _ _ _ _ Ht H1).
      destruct (get_structure_by_material_id (entry_id e)) as [|st0];
        lazy beta iota; [discriminate|].
      apply IH.
    + destruct (to_set_up phases pd t2 e).
      * destruct (get_structure_by_material_id (entry_id e)) as [|st0];
          lazy beta iota; [discriminate|].
        apply IH.
      * apply IH.
Qed.

Lemma setup_inv self ex full t fmt r acts self' :
  setup_phase_diagram_calculations self ex full t fmt = inr (r, acts, self') →
  ∃ bd pd cl,
    self' = mkGen (gen_bulk_composition self) (Some bd) ∧
    match gen_MPC_entries self with
    | None =>
        get_entries_in_chemsys (elements (gen_bulk_composition self)) = inr bd
    | Some bd0 => bd = bd0
    end ∧
    PhaseDiagram bd = inr pd ∧
    get_all_chempots pd (reduced_composition (gen_bulk_composition self))
      = inr cl ∧
    foldM (setup_step
             (setupphases full (gen_bulk_composition self) bd cl) pd t) [] bd
      = inr r ∧
    acts = write_structures ex fmt r.
Proof.
  unfold setup_phase_diagram_calculations.
  unfold mbind at 1. unfold exn_bind at 1.
  destruct (get_chempots_from_composition _ _) as [|[[cl d] s]] eqn:Hc;
    [discriminate|].
  apply get_chempots_from_composition_inv in Hc
    as (bd & pd & -> & Hpd & Hcl & Hd).
  unfold mbind, exn_bind, mret, exn_ret. rewrite Hpd.
  destruct (foldM _ _ _) as [|r0] eqn:Hloop; [discriminate|].
  intros [= <- <- <-]. exists bd, pd, cl. split_and!; try done.
  destruct (gen_MPC_entries self) as [bd0|]; [|by destruct Hd].
  destruct Hd as [[= ->] _]. done.
Qed.

(** X18. When [setup_phase_diagram_calculations] returns, the analyzer of
    the generator holds a list of entries; the dict returned has a key
    [id_name] for every entry of that list whose name is one of the phases
    to set up and whose energy above the hull is at most
    [energy_above_hull], and nothing else: every structure in it is the
    structure the database gives for the id of such an entry. *)
Theorem setup_structures self ex full t fmt r acts self' :
  setup_phase_diagram_calculations self ex full t fmt = inr (r, acts, self') →
  ∃ bd pd cl,
    gen_MPC_entries self' = Some bd ∧
    PhaseDiagram bd = inr pd ∧
    get_all_chempots pd (reduced_composition (gen_bulk_composition self))
      = inr cl ∧
    let phases := setupphases full (gen_bulk_composition self) bd cl in
    (∀ e, e ∈ bd → entry_name e ∈ phases →
          (get_decomp_and_e_above_hull pd e <= t)%Q →
          is_Some (alist_get (setup_key e) r)) ∧
    (∀ k st, alist_get k r = Some st →
       ∃ e, e ∈ bd ∧ entry_name e ∈ phases ∧
            (get_decomp_and_e_above_hull pd e <= t)%Q ∧
            setup_key e = k ∧
            get_structure_by_material_id (entry_id e) = inr st).
Proof.
  intros (bd & pd & cl & -> & _ & Hpd & Hcl & Hloop & _)%setup_inv.
  exists bd, pd, cl. split_and!; [done..|].
  apply setup_loop in Hloop as (_ & Hin & Hval).
  intros phases. split.
  - intros e He Hn Hle. apply Hin; [done|].
    unfold to_set_up. apply andb_true_iff. split.
    + by apply bool_decide_eq_true.
    + by apply Qle_bool_iff.
  - intros k st [Hk|(e & He & [Hn Hle]%andb_true_iff & Hkey & Hst)]%Hval;
      [done|].
    exists e. split_and!; [done| | |done..].
    + by apply bool_decide_eq_true in Hn.
    + by apply Qle_bool_iff.
Qed.

(** X19. With [full_phase_diagram] the facets of the solve play no
    part: the dict returned has the key of an entry of the chemical
    system exactly when an entry with that key is within
    [energy_above_hull] of the hull. *)
Theorem setup_full_phase_diagram self ex t fmt r acts self' :
  setup_phase_diagram_calculations self ex true t fmt = inr (r, acts, self') →
  ∃ bd pd,
    gen_MPC_entries self' = Some bd ∧
    PhaseDiagram bd = inr pd ∧
    ∀ e, e ∈ bd →
      is_Some (alist_get (setup_key e) r) ↔
      ∃ e', e' ∈ bd ∧ setup_key e' = setup_key e ∧
            (get_decomp_and_e_above_hull pd e' <= t)%Q.
Proof.
  intros (bd & pd & cl & -> & _ & Hpd & Hcl & Hloop & _)%setup_inv.
  exists bd, pd. split_and!; [done..|].
  apply setup_loop in Hloop as (_ & Hin & Hval).
  intros e He. split.
  - intros [st [Hk|(e' & He' & [_ Hle]%andb_true_iff & Hkey & _)]%Hval];
      [done|].
    exists e'. split_and!; [done..|]. by apply Qle_bool_iff.
  - intros (e' & He' & <- & Hle). apply Hin; [done|].
    unfold to_set_up. apply andb_true_iff. split.
    + apply bool_decide_eq_true. unfold setupphases.
      by apply list_elem_of_fmap_2.
    + by apply Qle_bool_iff.
Qed.

(** X20. Lowering [energy_above_hull] never makes
    [setup_phase_diagram_calculations] fail and never adds a structure:
    if the call returns for a threshold it returns for every smaller one,
    with a dict whose keys are among those of the first. *)
Theorem setup_threshold_monotone self ex full (t1 t2 : Q) fmt r2 acts2 self' :
  (t1 <= t2)%Q →
  setup_phase_diagram_calculations self ex full t2 fmt
    = inr (r2, acts2, self') →
  ∃ r1 acts1,
    setup_phase_diagram_calculations self ex full t1 fmt
      = inr (r1, acts1, self') ∧
    ∀ k, is_Some (alist_get k r1) → is_Some (alist_get k r2).
Proof.
  intros Ht H2. pose proof H2 as H2'. revert H2.
  unfold setup_phase_diagram_calculations.
  unfold mbind at 1 4. unfold exn_bind at 1 4.
  destruct (get_chempots_from_composition _ _) as [|[[cl d] s]] eqn:Hc;
    [discriminate|].
  destruct d as [| |bd]; [discriminate..|].
  unfold mbind, exn_bind, mret, exn_ret.
  destruct (PhaseDiagram bd) as [|pd]; [discriminate|].
  destruct (foldM (setup_step _ pd t2) _ _) as [|r0] eqn:Hloop2;
    [discriminate|].
  intros [= <- <- <-].
  destruct (setup_loop_mono _ pd t1 t2 bd Ht [] [] _ Hloop2) as [r1 Hloop1].
  rewrite Hloop1. eexists _, _. split; [done|].
  apply setup_loop in Hloop1 as (_ & _ & Hval1).
  apply setup_loop in Hloop2 as (_ & Hin2 & _).
  intros k [st [Hk|(e & He & Hsel & <- & _)]%Hval1]; [done|].
  apply Hin2; [done|]. by eapply to_set_up_mono.
Qed.

(** X21. When the folder 'PhaseDiagram' exists the call still queries the
    database and returns the same dict as when it does not, and does
    nothing to the file system; when the folder does not exist the call
    makes it, and for each item of the dict one folder named by the key
    and in it one file with the structure, named POSCAR for the format
    'poscar' and structfile for any other. *)
Theorem setup_existing_folder self full t fmt r acts self' :
  setup_phase_diagram_calculations self true full t fmt
    = inr (r, acts, self') →
  acts = [] ∧
  ∃ acts',
    setup_phase_diagram_calculations self false full t fmt
      = inr (r, acts', self') ∧
    length acts' = 1 + 2 * length r ∧
    ∀ k st, (k, st) ∈ r →
      MakeDirs ["PhaseDiagram"; k] ∈ acts' ∧
      WriteStructure st fmt
        ["PhaseDiagram"; k;
         if String.eqb fmt "poscar" then "POSCAR" else "structfile"] ∈ acts'.
Proof.
  unfold setup_phase_diagram_calculations.
  unfold mbind at 1 4. unfold exn_bind at 1 4.
  destruct (get_chempots_from_composition _ _) as [|[[cl d] s]] eqn:Hc;
    [discriminate|].
  destruct d as [| |bd]; [discriminate..|].
  unfold mbind, exn_bind, mret, exn_ret.
  destruct (PhaseDiagram bd) as [|pd]; [discriminate|].
  destruct (foldM _ _ _) as [|r0] eqn:Hloop; [discriminate|].
  intros [= <- <- <-]. split; [done|].
  eexists. split; [done|]. clear Hloop. unfold write_structures. split.
  - cbn [length]. f_equal.
    induction r0 as [|kv r0 IH]; [done|].
    cbn [mbind list_bind app length] in *. rewrite IH. lia.
  - intros k st Hin. rewrite !elem_of_cons, !list_elem_of_bind.
    split; right; exists (k, st); (split; [|done]); cbn [fst snd app].
    + apply elem_of_cons. by left.
    + apply elem_of_cons. right. apply elem_of_cons. by left.
Qed.

End Setup.

(** ** The further properties on worked inputs *)

Section OnCases.
Import Example Cases.

Lemma merged_table_extends_witness :
  merged_table (pdlib:=doped_lib) (after_mp_Mn [Ga; N2; GaN]) [Ga; N2; GaN]
    stable_table = inr doped_merged ∧
  size (rekey_bulk stable_table) ≤ size doped_merged.
Proof.
  split; [exact eq_refl|].
  exact (proj1 (proj2
    (merged_table_extends (pdlib:=doped_lib) (after_mp_Mn [Ga; N2; GaN])
       [Ga; N2; GaN] stable_table doped_merged eq_refl))).
Defined.

Lemma doped_merge_loop :
  foldM (merge_facet 2 "Mn") stable_sorted doped_table = inr doped_merged.
Proof. exact eq_refl. Qed.

Lemma merge_loop_new_labels_witness :
  foldM (merge_facet 2 "Mn") stable_sorted doped_table = inr doped_merged ∧
  is_Some (doped_merged !! "GaN") ∧
  stable_sorted !! "GaN" = None ∧
  ∃ kv, kv ∈ doped_table ∧ facet_accepted 2 "Mn" kv.1 = true ∧
        bulk_label "Mn" kv.1 = "GaN".
Proof.
  assert (Hs : is_Some (doped_merged !! "GaN")) by (eexists; exact eq_refl).
  split_and!; [exact doped_merge_loop|exact Hs|exact eq_refl|].
  exact (merge_loop_new_labels 2 "Mn" doped_table stable_sorted doped_merged
           "GaN" doped_merge_loop Hs eq_refl).
Defined.

Lemma element_keyed_insert e v (vec : gmap Key Val) :
  element_keyed vec → element_keyed (<[KElement e := v]> vec).
Proof.
  intros Hvec k Hk. destruct (decide (k = KElement e)) as [->|Hne].
  - by exists e.
  - rewrite lookup_insert_ne in Hk by done. by apply Hvec.
Qed.

Lemma element_keyed_empty : element_keyed ∅.
Proof. intros k [? Hk]. by rewrite lookup_empty in Hk. Qed.

Lemma doped_table_element_keyed :
  Forall (λ kv : string * gmap Key Val, element_keyed kv.2) doped_table.
Proof.
  repeat apply Forall_cons_2; try apply Forall_nil_2; cbn [snd];
    unfold mu_Mn, mu; repeat apply element_keyed_insert;
    apply element_keyed_empty.
Qed.

Lemma names_are_strings_empty : names_are_strings ∅.
Proof. intros L rec x HL. by rewrite lookup_empty in HL. Qed.

Lemma merge_loop_errors_witness :
  "Mn" ≠ "name-append" ∧
  Forall (λ kv : string * gmap Key Val, element_keyed kv.2) doped_table ∧
  names_are_strings ∅ ∧
  ∃ fin', foldM (merge_facet 2 "Mn") ∅ doped_table = inr fin' ∧
          names_are_strings fin'.
Proof.
  assert (Hne : "Mn" ≠ "name-append") by discriminate.
  split_and!;
    [exact Hne|exact doped_table_element_keyed|exact names_are_strings_empty|].
  eexists. split; [exact eq_refl|].
  exact (proj1 (merge_loop_errors 2 "Mn" doped_table ∅ Hne
                  doped_table_element_keyed names_are_strings_empty)).
Defined.

Lemma doped_get_mp_entries :
  get_mp_entries (mp:=mp_doped) analyzer_Mn false
    = inr (after_mp_Mn [Ga; N2; GaN]).
Proof. exact eq_refl. Qed.

Lemma get_mp_entries_dilute_subs_witness :
  get_mp_entries (mp:=mp_doped) analyzer_Mn false
    = inr (after_mp_Mn [Ga; N2; GaN]) ∧
  get_entries_in_chemsys (MPRester:=mp_doped) ["Ga"; "N"]
    = inr [Ga; N2; GaN] ∧
  ∃ ans,
    get_entries_in_chemsys (MPRester:=mp_doped) ["Ga"; "N"; "Mn"] = inr ans ∧
    ans ≠ [] ∧
    alist_get "Mn" [("Mn", [Mn; MnN])] =
      Some (filter (λ e, entry_id e ∉ entry_id <$> [Ga; N2; GaN]) ans).
Proof.
  pose proof (get_mp_entries_dilute_subs (mp:=mp_doped) analyzer_Mn
                (after_mp_Mn [Ga; N2; GaN]) doped_get_mp_entries)
    as (Hbd & _ & Hsubs).
  split_and!; [exact doped_get_mp_entries|exact Hbd|].
  apply (Hsubs "Mn"). apply list_elem_of_singleton. reflexivity.
Defined.

Lemma override_get_mp_entries :
  get_mp_entries (mp:=mp_with_GaN) analyzer_both false = inr after_both.
Proof. exact eq_refl. Qed.

Lemma get_mp_entries_override_witness :
  bulk_ce analyzer_both = Some MnN ∧
  PyStr.truth (mpid analyzer_both) = Some "mp-804" ∧
  get_mp_entries (mp:=mp_with_GaN) analyzer_both false = inr after_both ∧
  bulk_ce after_both = Some GaN ∧
  bulk_species_symbol after_both = elements (composition MnN) ∧
  redcomp after_both = reduced_composition (composition MnN).
Proof.
  split_and!; [exact eq_refl|exact eq_refl|exact override_get_mp_entries|..];
    [reflexivity|
     exact (proj1 (proj2 (get_mp_entries_override (mp:=mp_with_GaN)
              analyzer_both after_both MnN "mp-804" eq_refl eq_refl
              override_get_mp_entries)))|
     exact (proj2 (proj2 (get_mp_entries_override (mp:=mp_with_GaN)
              analyzer_both after_both MnN "mp-804" eq_refl eq_refl
              override_get_mp_entries)))].
Defined.

Lemma doped_get_mp_entries_full :
  get_mp_entries (mp:=mp_doped) analyzer_Mn true
    = inr (after_mp_Mn [Ga; N2; GaN; Mn; MnN]).
Proof. exact eq_refl. Qed.

Lemma get_mp_entries_full_witness :
  NoDup (sub_species analyzer_Mn) ∧
  get_mp_entries (mp:=mp_doped) analyzer_Mn true
    = inr (after_mp_Mn [Ga; N2; GaN; Mn; MnN]) ∧
  get_entries_in_chemsys (MPRester:=mp_doped) (["Ga"; "N"] ++ ["Mn"])
    = inr [Ga; N2; GaN; Mn; MnN] ∧
  bulk_ce (after_mp_Mn [Ga; N2; GaN; Mn; MnN]) = Some GaN.
Proof.
  assert (Hnd : NoDup (sub_species analyzer_Mn)) by apply NoDup_singleton.
  pose proof (get_mp_entries_full (mp:=mp_doped) analyzer_Mn
                (after_mp_Mn [Ga; N2; GaN; Mn; MnN]) Hnd
                doped_get_mp_entries_full) as (Hbd & _ & Hb).
  split_and!; [exact Hnd|exact doped_get_mp_entries_full|exact Hbd|].
  exact (Hb GaN eq_refl).
Defined.

Lemma analyze_without_bulk_witness :
  bulk_ce analyzer_empty = None ∧
  PyStr.truth (mpid analyzer_empty) = None ∧
  ∃ msg,
    get_mp_entries (mp:=mp_with_GaN) analyzer_empty false
      = inl (ValueError msg) ∧
    analyze_GGA_chempots (pdlib:=stable_lib) (mp:=mp_with_GaN)
      analyzer_empty false = inl (ValueError msg).
Proof.
  split_and!; [exact eq_refl|exact eq_refl|].
  exact (analyze_without_bulk (pdlib:=stable_lib) (mp:=mp_with_GaN)
           analyzer_empty false eq_refl eq_refl).
Defined.

Lemma doped_analyze :
  analyze_GGA_chempots (pdlib:=doped_lib) (mp:=mp_doped) analyzer_Mn false
    = inr (dict_of_items doped_table, after_mp_Mn [Ga; N2; GaN; Mn; MnN]).
Proof. exact eq_refl. Qed.

Lemma analyze_appends_only_witness :
  analyze_GGA_chempots (pdlib:=doped_lib) (mp:=mp_doped) analyzer_Mn false
    = inr (dict_of_items doped_table, after_mp_Mn [Ga; N2; GaN; Mn; MnN]) ∧
  ∃ self' extra,
    get_mp_entries (mp:=mp_doped) analyzer_Mn false = inr self' ∧
    [Ga; N2; GaN; Mn; MnN] = bulk_derived (entries self') ++ extra ∧
    ∀ e, e ∈ extra →
         bulk_ce self' = Some e ∨
         e ∈ all_sub_entries (subs_set (entries self')).
Proof.
  split; [exact doped_analyze|].
  destruct (analyze_appends_only (pdlib:=doped_lib) (mp:=mp_doped)
              analyzer_Mn false _ _ doped_analyze)
    as (self' & extra & Hget & Hbd & Hextra & _).
  exists self', extra. split_and!; [exact Hget|exact Hbd|exact Hextra].
Defined.

Lemma user_dilute_closed_form_witness :
  match user_bulk_ce user with
  | Some b' => Some b'
  | None => None
  end = Some GaN ∧
  read_phase_diagram_and_chempots (pdlib:=stable_lib) user
    (Some [Ga; N2]) None false = inl AttributeError.
Proof.
  split; [exact eq_refl|].
  rewrite (user_dilute_closed_form (pdlib:=stable_lib) user [Ga; N2] None
             GaN eq_refl).
  exact eq_refl.
Defined.

Lemma pure_entries_of_bulk :
  ∀ p elt, p ∈ [Ga] ++ [GaN] → is_element p = true →
           is_Some (composition p !! elt) →
           is_Some (composition GaN !! elt).
Proof.
  intros p elt [->|[->|[]%elem_of_nil]%elem_of_cons]%elem_of_cons Hel.
  - intros [n Hn].
    change (({["Ga" := 1%N]} : Composition) !! elt = Some n) in Hn.
    apply lookup_singleton_Some in Hn as [<- _]. eexists. exact eq_refl.
  - done.
Qed.

Lemma user_full_solve_list_witness :
  match user_bulk_ce user with
  | Some b' => Some b'
  | None => None
  end = Some GaN ∧
  (∀ p elt, p ∈ [Ga] ++ [GaN] → is_element p = true →
            is_Some (composition p !! elt) →
            is_Some (composition GaN !! elt)) ∧
  ∃ fakes,
    (∀ f, f ∈ fakes ↔
       ∃ elt, f = fake_entry elt ∧ is_Some (composition GaN !! elt) ∧
              ∀ p, p ∈ [Ga] ++ [GaN] → is_element p = true →
                   composition p !! elt = None) ∧
    read_phase_diagram_and_chempots (pdlib:=stable_lib) user
      (Some [Ga]) None true =
      pd ← PhaseDiagram (PhaseDiagramLib:=stable_lib)
             ([Ga] ++ [GaN] ++ fakes ++ [GaN]);
      chem_lims ← get_chempots_from_pd (pdlib:=stable_lib) (Some GaN) pd;
      mret (Some (dict_of_items chem_lims)).
Proof.
  split_and!; [exact eq_refl|exact pure_entries_of_bulk|].
  exact (user_full_solve_list (pdlib:=stable_lib) user [Ga] None GaN
           eq_refl pure_entries_of_bulk).
Defined.

Lemma first_call :
  get_chempots_from_composition (pdlib:=stable_lib) (mp:=mp_with_GaN)
    EmptyDict (composition GaN)
  = inr (stable_table, WithBulkDerived [Ga; N2; GaN],
         Some (elements (reduced_composition (composition GaN)))).
Proof. exact eq_refl. Qed.

Lemma get_chempots_from_composition_reuse_witness :
  get_chempots_from_composition (pdlib:=stable_lib) (mp:=mp_with_GaN)
    EmptyDict (composition GaN)
  = inr (stable_table, WithBulkDerived [Ga; N2; GaN],
         Some (elements (reduced_composition (composition GaN)))) ∧
  get_chempots_from_composition (pdlib:=stable_lib) (mp:=mp_with_GaN)
    (WithBulkDerived [Ga; N2; GaN]) (composition MnN)
  = inr (stable_table, WithBulkDerived [Ga; N2; GaN], None).
Proof.
  split; [exact first_call|].
  destruct (get_chempots_from_composition_reuse (pdlib:=stable_lib)
              (mp:=mp_with_GaN) _ _ _ _ first_call)
    as (bd & Hq & Hd & _ & Hnext).
  rewrite (Hnext (composition MnN)).
  injection Hd as <-. exact eq_refl.
Defined.

Lemma setup_on_hull :
  setup_phase_diagram_calculations (pdlib:=setup_lib) (mp:=setup_mp)
    (sl:=names) generator false false 0 "poscar"
  = inr (on_hull, write_structures (sl:=names) false "poscar" on_hull,
         generator').
Proof. exact eq_refl. Qed.

Lemma setup_near_hull :
  setup_phase_diagram_calculations (pdlib:=setup_lib) (mp:=setup_mp)
    (sl:=names) generator false false (1 # 10) "poscar"
  = inr (near_hull, write_structures (sl:=names) false "poscar" near_hull,
         generator').
Proof. exact eq_refl. Qed.

Lemma setup_full_on_hull :
  setup_phase_diagram_calculations (pdlib:=setup_lib) (mp:=setup_mp)
    (sl:=names) generator true true 0 "cif"
  = inr (on_hull, [], generator').
Proof. exact eq_refl. Qed.

Lemma setup_structures_witness :
  setup_phase_diagram_calculations (pdlib:=setup_lib) (mp:=setup_mp)
    (sl:=names) generator false false 0 "poscar"
  = inr (on_hull, write_structures (sl:=names) false "poscar" on_hull,
         generator') ∧
  ∃ bd pd cl,
    gen_MPC_entries generator' = Some bd ∧
    PhaseDiagram (PhaseDiagramLib:=setup_lib) bd = inr pd ∧
    get_all_chempots pd (reduced_composition (composition GaN)) = inr cl ∧
    ∀ k st, alist_get k on_hull = Some st →
      ∃ e, e ∈ bd ∧
           entry_name (StructureLib:=names) e
             ∈ setupphases (sl:=names) false (composition GaN) bd cl ∧
           (get_decomp_and_e_above_hull pd e <= 0)%Q ∧
           setup_key (sl:=names) e = k ∧
           get_structure_by_material_id (StructureLib:=names) (entry_id e)
             = inr st.
Proof.
  split; [exact setup_on_hull|].
  destruct (setup_structures (pdlib:=setup_lib) (mp:=setup_mp) (sl:=names)
              _ _ _ _ _ _ _ _ setup_on_hull)
    as (bd & pd & cl & Hbd & Hpd & Hcl & _ & Hval).
  exists bd, pd, cl. split_and!; [exact Hbd|exact Hpd|exact Hcl|exact Hval].
Defined.

Lemma setup_full_phase_diagram_witness :
  setup_phase_diagram_calculations (pdlib:=setup_lib) (mp:=setup_mp)
    (sl:=names) generator true true 0 "cif"
  = inr (on_hull, [], generator') ∧
  ∃ bd pd,
    gen_MPC_entries generator' = Some bd ∧
    PhaseDiagram (PhaseDiagramLib:=setup_lib) bd = inr pd ∧
    ∀ e, e ∈ bd →
      is_Some (alist_get (setup_key (sl:=names) e) on_hull) ↔
      ∃ e', e' ∈ bd ∧
            setup_key (sl:=names) e' = setup_key (sl:=names) e ∧
            (get_decomp_and_e_above_hull pd e' <= 0)%Q.
Proof.
  split; [exact setup_full_on_hull|].
  exact (setup_full_phase_diagram (pdlib:=setup_lib) (mp:=setup_mp)
           (sl:=names) _ _ _ _ _ _ _ setup_full_on_hull).
Defined.

Lemma setup_threshold_monotone_witness :
  (0 <= 1 # 10)%Q ∧
  setup_phase_diagram_calculations (pdlib:=setup_lib) (mp:=setup_mp)
    (sl:=names) generator false false (1 # 10) "poscar"
  = inr (near_hull, write_structures (sl:=names) false "poscar" near_hull,
         generator') ∧
  ∃ r1 acts1,
    setup_phase_diagram_calculations (pdlib:=setup_lib) (mp:=setup_mp)
      (sl:=names) generator false false 0 "poscar"
    = inr (r1, acts1, generator') ∧
    ∀ k, is_Some (alist_get k r1) → is_Some (alist_get k near_hull).
Proof.
  assert (Ht : (0 <= 1 # 10)%Q) by discriminate.
  split_and!; [exact Ht|exact setup_near_hull|].
  exact (setup_threshold_monotone (pdlib:=setup_lib) (mp:=setup_mp)
           (sl:=names) _ _ _ _ _ _ _ _ _ Ht setup_near_hull).
Defined.

Lemma setup_existing_folder_witness :
  setup_phase_diagram_calculations (pdlib:=setup_lib) (mp:=setup_mp)
    (sl:=names) generator true true 0 "cif"
  = inr (on_hull, [], generator') ∧
  ∃ acts',
    setup_phase_diagram_calculations (pdlib:=setup_lib) (mp:=setup_mp)
      (sl:=names) generator false true 0 "cif"
    = inr (on_hull, acts', generator') ∧
    length acts' = 1 + 2 * length on_hull.
Proof.
  split; [exact setup_full_on_hull|].
  destruct (setup_existing_folder (pdlib:=setup_lib) (mp:=setup_mp)
              (sl:=names) _ _ _ _ _ _ _ setup_full_on_hull)
    as (_ & acts' & Hcall & Hlen & _).
  exists acts'. split; [exact Hcall|exact Hlen].
Defined.

End OnCases.

(** * The acceptance test, the substring test and the facet equations *)

Section OnDoped.
Import Example Doped.

Lemma doped_merge :
  foldM (merge_facet 2 "Mn") stable_sorted ternary_table = inr merged.
Proof. exact eq_refl. Qed.

Lemma doped_escalated :
  analyze_GGA_chempots (pdlib:=hull_lib) (mp:=Doped.mp) analyzer_Mn false
    = inr (dict_of_items ternary_table, escalated).
Proof. exact eq_refl. Qed.

End OnDoped.

Section Acceptance.
Import Example Doped.
Implicit Types (fin : gmap string (gmap Key Val)) (vec rec : gmap Key Val).


End Acceptance.

Section Substring.
Import Oxide.

(** C5. The partition does not go by the elements of a phase. The
    phases put into the substitutional subset are those whose name has
    the symbol of the target as a part of its text, wherever it stands:
    with target N the phases Ni and NiO, which hold no nitrogen, are
    taken out of the bulk subset, of [NiO; Ni; O2] and of the facet
    [NiO; Ni; Ni3N] alike, where no bulk phase is left. The test on the
    composition of an entry, as [get_mp_entries] makes it, finds no N in
    Ni, NiO or O2. *)
Theorem partition_substring_test :
  (∀ face_list s f, s ≠ "" →
     f ∈ (diff_bulk_sub_lists face_list (Some s)).2 ↔
     f ∈ face_list ∧ ∃ a b, f = a +:+ s +:+ b) ∧
  diff_bulk_sub_phases ["NiO"; "Ni"; "O2"] (Some "N")
    = (["O2"], "O2", "Ni-NiO") ∧
  diff_bulk_sub_phases ["NiO"; "Ni"; "Ni3N"] (Some "N")
    = ([], "", "Ni-Ni3N-NiO") ∧
  in_composition "N" Ni = false ∧
  in_composition "N" NiO = false ∧
  in_composition "N" O2 = false.
Proof.
  split_and!; try exact eq_refl.
  intros face_list s f Hs.
  pose proof (diff_bulk_sub_phases_partition face_list (Some s)) as Hp.
  destruct (diff_bulk_sub_lists face_list (Some s)) as [blk sub_spcs].
  destruct Hp as (_ & _ & _ & _ & _ & Hsub & _ & _ & _ & Htext).
  assert (Ht : PyStr.truth (Some s) = Some s) by by destruct s.
  rewrite Ht in Htext. cbn [snd]. rewrite Hsub.
  split; intros [Hf Hin]; (split; [done|]); by apply Htext.
Qed.

End Substring.

Section FacetEquations.
Context {pdlib : PhaseDiagramLib} {mp : MPRester} {sl : StructureLib}.
Variable tol : Q.
Implicit Types (fin : gmap string (gmap Key Val)) (vec rec : gmap Key Val)
  (U : list Entry).

Lemma chempot_sum_ext rec rec' (c : Composition) :
  (∀ el, rec' !! KElement el = rec !! KElement el) →
  chempot_sum rec' c = chempot_sum rec c.
Proof.
  intros Hext. unfold chempot_sum.
  induction (map_to_list c) as [|[el n] l IH]; [done|].
  cbn [foldr fst snd]. rewrite IH. unfold chempot. by rewrite Hext.
Qed.

Lemma facet_solved_ext U L rec rec' :
  (∀ el, rec' !! KElement el = rec !! KElement el) →
  facet_solved tol U L rec → facet_solved tol U L rec'.
Proof.
  intros Hext Hrec p Hp. destruct (Hrec p Hp) as (e & He & Hn & Hr).
  exists e. split_and!; [done..|].
  unfold reproduces in *. by rewrite (chempot_sum_ext rec rec').
Qed.

Lemma facet_solved_mono U U' L vec :
  U ⊆ U' → facet_solved tol U L vec → facet_solved tol U' L vec.
Proof.
  intros HU Hvec p Hp. destruct (Hvec p Hp) as (e & He & Hn & Hr).
  exists e. split_and!; [by apply HU|done..].
Qed.

Lemma facet_solved_phases U L L' vec :
  (∀ p, p ∈ label_phases L' → p ∈ label_phases L) →
  facet_solved tol U L vec → facet_solved tol U L' vec.
Proof. intros HL Hvec p Hp. apply Hvec, HL, Hp. Qed.

Lemma label_phases_split L p :
  p ∈ label_phases L ↔ L ≠ "" ∧ p ∈ PyStr.split_dash L.
Proof.
  destruct L as [|a L]; cbn [label_phases].
  - split; [by intros ?%elem_of_nil|by intros [? _]].
  - split; [by intros ?|by intros [_ ?]].
Qed.

Lemma label_phases_canonical key p :
  p ∈ label_phases (canonical_label key) → p ∈ label_phases key.
Proof.
  rewrite !label_phases_split, split_canonical, PyStrFacts.sort_perm.
  intros [Hne Hp]. split; [|done]. by intros ->.
Qed.

Lemma bulk_label_empty s : bulk_label s "" = "".
Proof.
  unfold bulk_label, diff_bulk_sub_phases, diff_bulk_sub_lists.
  cbn [PyStr.split_dash foldl]. unfold diff_step.
  destruct (PyStr.truth (Some s)) as [s'|]; [|exact eq_refl].
  destruct (PyStr.contains s' ""); exact eq_refl.
Qed.

Lemma label_phases_bulk s key p :
  p ∈ label_phases (bulk_label s key) → p ∈ label_phases key.
Proof.
  rewrite !label_phases_split. intros [Hne Hp]. split.
  { intros ->. by rewrite bulk_label_empty in Hne. }
  revert Hne Hp. unfold bulk_label, diff_bulk_sub_phases.
  rewrite diff_bulk_sub_lists_eq. cbn [fst snd].
  set (blk := filter (λ f, ¬ in_sub (Some s) f) (PyStr.split_dash key)).
  rewrite split_join_or_empty
    by apply sort_dash_free, filter_dash_free, split_dash_dash_free.
  destruct (PyStr.sort blk) as [|x l] eqn:Hsort; [done|].
  intros _ Hp. rewrite <- Hsort, PyStrFacts.sort_perm in Hp.
  by apply list_elem_of_filter in Hp as [_ Hp].
Qed.

Lemma alist_get_elem {V} k (v : V) d : alist_get k d = Some v → (k, v) ∈ d.
Proof.
  induction d as [|[k' v'] d IH]; [done|]. cbn [alist_get].
  destruct (String.eqb k k') eqn:Hk.
  - apply String.eqb_eq in Hk as ->. intros [= ->]. apply elem_of_cons. by left.
  - intros Hd. apply elem_of_cons. right. by apply IH.
Qed.

Hypothesis solver : solver_postcondition tol.

Lemma get_chempots_from_pd_solved b pd cl key vec :
  get_chempots_from_pd (Some b) pd = inr cl →
  (key, vec) ∈ cl →
  facet_solved tol (all_entries pd ++ [b]) key vec.
Proof.
  unfold get_chempots_from_pd, mbind, exn_bind.
  destruct (PhaseDiagram (all_entries pd ++ [b])) as [|pd'] eqn:Hpd;
    [discriminate|].
  intros Hcl Hin. destruct (solver _ _ Hpd) as [_ Hpost]. by eapply Hpost.
Qed.

Lemma solve_of_list_solved b el pd cl key vec :
  PhaseDiagram el = inr pd →
  get_chempots_from_pd (Some b) pd = inr cl →
  (key, vec) ∈ cl →
  facet_solved tol (el ++ [b]) key vec.
Proof.
  intros Hpd Hcl Hin. destruct (solver _ _ Hpd) as [<- _].
  by eapply get_chempots_from_pd_solved.
Qed.

Lemma rekey_solved U cl L rec :
  (∀ key vec, (key, vec) ∈ cl → facet_solved tol U key vec) →
  rekey_bulk cl !! L = Some rec →
  facet_solved tol U L rec.
Proof.
  intros Hcl. rewrite rekey_bulk_items.
  intros ([key vec] & [= -> ->] & Hin)%dict_of_items_lookup%list_elem_of_fmap.
  cbn [fst snd]. eapply facet_solved_phases; [|by apply Hcl].
  apply label_phases_canonical.
Qed.

Lemma merge_facet_solved U n s fin fin' kv :
  (∀ L rec, fin !! L = Some rec → facet_solved tol U L rec) →
  facet_solved tol U kv.1 kv.2 →
  merge_facet n s fin kv = inr fin' →
  ∀ L rec, fin' !! L = Some rec → facet_solved tol U L rec.
Proof.
  intros Hfin Hkv Hm. destruct kv as [key vec].
  destruct (facet_accepted n s key) eqn:Hacc.
  - pose proof (merge_facet_accepted _ _ _ _ _ _ Hacc Hm) as Hinv.
    pose proof (λ p, label_phases_bulk s key p) as Hsub.
    unfold bulk_label in Hsub.
    destruct (diff_bulk_sub_phases _ _) as [[blk blknom] subnom].
    cbn [fst snd] in Hsub.
    destruct Hinv as (rec1 & nm & H1 & _ & ->).
    intros L rec. destruct (decide (blknom = L)) as [<-|Hne].
    + rewrite lookup_insert_eq. intros [= <-].
      destruct (fin !! blknom) as [rec0|] eqn:H0.
      * destruct H1 as (mu & _ & ->).
        apply (facet_solved_ext _ _ rec0); [|by eapply Hfin].
        intros el. by rewrite !lookup_insert_ne.
      * subst rec1. apply (facet_solved_ext _ _ vec).
        { intros el. by rewrite lookup_insert_ne. }
        by eapply facet_solved_phases.
    + rewrite lookup_insert_ne by done. apply Hfin.
  - rewrite merge_facet_rejected in Hm by done. injection Hm as <-. done.
Qed.

Lemma merge_loop_solved U n s (items : list (string * gmap Key Val)) :
  ∀ fin fin',
  (∀ L rec, fin !! L = Some rec → facet_solved tol U L rec) →
  (∀ key vec, (key, vec) ∈ items → facet_solved tol U key vec) →
  foldM (merge_facet n s) fin items = inr fin' →
  ∀ L rec, fin' !! L = Some rec → facet_solved tol U L rec.
Proof.
  induction items as [|[key vec] items IH]; intros fin fin' Hfin Hitems.
  - cbn [foldM]. unfold mret, exn_ret. by intros [= <-].
  - cbn [foldM]. unfold mbind, exn_bind.
    destruct (merge_facet n s fin (key, vec)) as [|fin1] eqn:H1;
      [discriminate|].
    apply IH.
    + eapply merge_facet_solved; [done| |done].
      apply Hitems, elem_of_cons. by left.
    + intros k v Hin. apply Hitems, elem_of_cons. by right.
Qed.

Lemma merge_sub_el_solved b n el subs fin fin' s :
  let U := el ++ all_sub_entries subs ++ [b] in
  (∀ L rec, fin !! L = Some rec → facet_solved tol U L rec) →
  merge_sub_el (Some b) n el subs fin s = inr fin' →
  ∀ L rec, fin' !! L = Some rec → facet_solved tol U L rec.
Proof.
  intros U Hfin. unfold merge_sub_el.
  destruct (alist_get s subs) as [l|] eqn:Hl; [|discriminate].
  unfold mbind, exn_bind.
  destruct (PhaseDiagram (el ++ l)) as [|pd] eqn:Hpd; [discriminate|].
  destruct (get_chempots_from_pd (Some b) pd) as [|cl] eqn:Hcl;
    [discriminate|].
  apply merge_loop_solved; [done|].
  intros key vec Hin.
  apply (facet_solved_mono ((el ++ l) ++ [b])).
  - intros e. unfold U. rewrite !elem_of_app, all_sub_entries_spec.
    intros [[?|?]|?]; [by left| |by right; right].
    right. left. exists s, l. split; [|done]. by apply alist_get_elem.
  - by eapply solve_of_list_solved.
Qed.

Lemma merged_table_solved self b el cl fin :
  bulk_ce self = Some b →
  let U := el ++ all_sub_entries (subs_set (entries self)) ++ [b] in
  (∀ key vec, (key, vec) ∈ cl → facet_solved tol U key vec) →
  merged_table self el cl = inr fin →
  ∀ L rec, fin !! L = Some rec → facet_solved tol U L rec.
Proof.
  intros Hb U Hcl. unfold merged_table. rewrite Hb.
  assert (Hre : ∀ L rec, rekey_bulk cl !! L = Some rec →
                         facet_solved tol U L rec)
    by (intros L rec; by apply rekey_solved).
  revert Hre. generalize (rekey_bulk cl).
  induction (sub_species self) as [|s species IH]; intros fin0 Hfin0.
  - cbn [foldM]. unfold mret, exn_ret. by intros [= <-].
  - cbn [foldM]. unfold mbind, exn_bind.
    destruct (merge_sub_el _ _ _ _ fin0 s) as [|fin1] eqn:H1; [discriminate|].
    apply IH. by eapply merge_sub_el_solved.
Qed.

End FacetEquations.

Section Energies.
Context {pdlib : PhaseDiagramLib} {mp : MPRester} {sl : StructureLib}.

(** C9. When the solve of the library meets its postcondition, every
    table the analysis returns meets it too. The facets that
    [get_chempots_from_pd] returns are named after entries of the phase
    diagram given, or the bulk entry, whose energies their vectors
    reproduce within the tolerance; and in every table that
    [analyze_GGA_chempots] returns, in either mode, merged or escalated,
    each phase that a label names is an entry held by the analyzer, the
    bulk entry included, and the vector under the label, put into the
    equation of the phase, gives its energy within the tolerance. *)
Theorem tables_reproduce_energies (tol : Q) :
  solver_postcondition tol →
  (∀ b pd cl key vec,
     get_chempots_from_pd (Some b) pd = inr cl →
     (key, vec) ∈ cl →
     facet_solved tol (all_entries pd ++ [b]) key vec) ∧
  (∀ self full t self'',
     analyze_GGA_chempots self full = inr (t, self'') →
     ∃ b, bulk_ce self'' = Some b ∧
       ∀ L rec, t !! L = Some rec →
         facet_solved tol
           (bulk_derived (entries self'') ++
            all_sub_entries (subs_set (entries self'')) ++ [b]) L rec).
Proof.
  intros Hsolver. split.
  { intros b pd cl key vec. by apply get_chempots_from_pd_solved. }
  intros self full t self'' Han.
  destruct (analyze_inv _ _ _ _ Han)
    as (self' & el & cl & Hbos & Hself & Hfull).
  destruct (bulk_only_solve_inv _ _ _ _ _ Hbos)
    as (_ & b & pd0 & pd & Hb & _ & _ & Hpd & Hcl).
  rewrite Hb in Hcl.
  assert (Hbulk : ∀ key vec, (key, vec) ∈ cl →
                             facet_solved tol (el ++ [b]) key vec)
    by (intros key vec; by apply (solve_of_list_solved tol Hsolver b el pd)).
  exists b. split.
  { by destruct Hself as [->|[_ ->]]. }
  destruct full.
  - rewrite (Hfull eq_refl). destruct Hself as [->|[[=] _]].
    intros L rec HL%dict_of_items_lookup. cbn.
    apply (facet_solved_mono _ (el ++ [b])); [|by apply Hbulk].
    intros e. rewrite !elem_of_app. intros [?|?]; auto.
  - clear Hself Hfull. rewrite (analyze_dilute_tail _ _ _ _ Hbos) in Han.
    revert Han. unfold mbind at 1. unfold exn_bind at 1.
    destruct (merged_table self' el cl) as [|fin] eqn:Hm; [discriminate|].
    assert (Hfin : ∀ L rec, fin !! L = Some rec →
      facet_solved tol
        (el ++ all_sub_entries (subs_set (entries self')) ++ [b]) L rec).
    { apply (merged_table_solved tol Hsolver self' b el cl fin Hb); [|done].
      intros key vec Hin.
      apply (facet_solved_mono _ (el ++ [b])); [|by apply Hbulk].
      intros e. rewrite !elem_of_app. intros [?|?]; auto. }
    destruct (overdependent_chempot fin _).
    + unfold mbind, exn_bind, mret, exn_ret.
      rewrite Hb.
      destruct (PhaseDiagram (el ++ _)) as [|pd2] eqn:Hpd2; [discriminate|].
      destruct (get_chempots_from_pd (Some b) pd2) as [|cl2] eqn:Hcl2;
        [discriminate|].
      intros [= <- <-]. intros L rec HL%dict_of_items_lookup. cbn.
      apply (facet_solved_mono _
        ((el ++ all_sub_entries (subs_set (entries self'))) ++ [b])).
      * intros e. rewrite !elem_of_app. tauto.
      * by apply (solve_of_list_solved tol Hsolver b _ pd2 cl2).
    + unfold mret, exn_ret. intros [= <- <-]. cbn. apply Hfin.
Qed.

End Energies.

Section OnHull.
Import Example Doped.

Lemma facet_solvedb_true {sl : StructureLib} tol U L (vec : gmap Key Val) :
  facet_solvedb tol U L vec = true → facet_solved tol U L vec.
Proof.
  unfold facet_solvedb, facet_solved. rewrite forallb_forall.
  intros Hall p Hp%list_elem_of_In.
  apply Hall, existsb_exists in Hp as (e & He%list_elem_of_In & Hn).
  apply andb_true_iff in Hn as [Hn%String.eqb_eq Hr]. by exists e.
Qed.

Lemma hull_lib_postcondition :
  solver_postcondition (pdlib:=hull_lib) (sl:=phase_names) (1 # 1000000).
Proof.
  intros entries pd [= <-]. split; [done|].
  intros c cl key vec [= <-] [Hok _]%list_elem_of_filter.
  by apply facet_solvedb_true, Is_true_true.
Qed.

Lemma tables_reproduce_energies_witness :
  solver_postcondition (pdlib:=hull_lib) (sl:=phase_names) (1 # 1000000) ∧
  analyze_GGA_chempots (pdlib:=hull_lib) (mp:=Doped.mp) analyzer_Mn false
    = inr (dict_of_items ternary_table, escalated) ∧
  ∀ L rec, dict_of_items ternary_table !! L = Some rec →
    facet_solved (sl:=phase_names) (1 # 1000000)
      (bulk_derived (entries escalated) ++
       all_sub_entries (subs_set (entries escalated)) ++ [GaN]) L rec.
Proof.
  split_and!; [exact hull_lib_postcondition|exact doped_escalated|].
  destruct (proj2 (tables_reproduce_energies (pdlib:=hull_lib)
                     (mp:=Doped.mp) (sl:=phase_names) (1 # 1000000)
                     hull_lib_postcondition)
              analyzer_Mn false _ _ doped_escalated) as (b & Hb & Hsolved).
  injection Hb as <-. exact Hsolved.
Defined.

End OnHull.
